(** * Robot localization filters (TP2: EKF, TP3: particle filter)

    Shallow embedding of [TP2/EKFLocalization.py] and
    [TP3/ParticleFilter.py].

    Conventions of the embedding.
    - Poses, controls, observations and covariances are real valued; the
      trigonometric code is embedded over [R] with exact arithmetic.
    - Where the rounding of the doubles decides what the code returns,
      the same code is embedded a second time over IEEE 754 binary64
      (module [Doubles]), one rounded operation for each operation of the
      source.
    - Particle weights are embedded as [npfloat]: exact rationals extended
      with the IEEE special values that numpy's division produces
      ([inf], [-inf], [nan]).
    - Draws of the pseudo random generator are explicit arguments of the
      function that draws them.
    - A Python exception is a [Raise] in the [result] type. *)

From Stdlib Require Import Reals Lra Lia Psatz List ZArith QArith Qround Bool Arith Sorted.
From Stdlib Require Floats.
Import ListNotations.

(* ================================================================= *)
(** * Part I: definitions *)
(* ================================================================= *)

(** ** Exceptions *)

Inductive exn : Type :=
| ValueError
| ZeroDivisionError
| IndexError
| LinAlgError
| OverflowError.

Inductive result (A : Type) : Type :=
| Ok (a : A)
| Raise (e : exn).

Arguments Ok {A} a.
Arguments Raise {A} e.

Definition bind {A B : Type} (m : result A) (k : A -> result B) : result B :=
  match m with
  | Ok a => k a
  | Raise e => Raise e
  end.

Notation "x <- m ;; k" := (bind m (fun x => k))
  (at level 61, m at next level, right associativity).

(** ** Small vectors and matrices over the reals *)

Section RealArrays.
Local Open Scope R_scope.

(** A 3x1 numpy column: indices [0,0], [1,0], [2,0]. *)
Record vec3 : Type := mk3 { v0 : R; v1 : R; v2 : R }.

(** A 2x1 numpy column. *)
Record vec2 : Type := mk2 { w0 : R; w1 : R }.

(** A two dimensional array, read by row and column. *)
Definition mat : Type := nat -> nat -> R.

Definition of_rows (rows : list (list R)) : mat :=
  fun i j => nth j (nth i rows []) 0.

Fixpoint dot (n : nat) (f : nat -> R) : R :=
  match n with
  | O => 0
  | S k => dot k f + f k
  end.

(** [A @ B], [n] being the inner dimension. *)
Definition mmul (n : nat) (A B : mat) : mat :=
  fun i j => dot n (fun k => A i k * B k j).

Definition transpose (A : mat) : mat := fun i j => A j i.
Definition madd (A B : mat) : mat := fun i j => A i j + B i j.
Definition msub (A B : mat) : mat := fun i j => A i j - B i j.
Definition mscale (c : R) (A : mat) : mat := fun i j => c * A i j.
Definition eye : mat := fun i j => if Nat.eqb i j then 1 else 0.

(** A matrix with two columns applied to a 2x1 column, giving a 3x1. *)
Definition mat_vec2 (K : mat) (v : vec2) : vec3 :=
  mk3 (K 0%nat 0%nat * w0 v + K 0%nat 1%nat * w1 v)
      (K 1%nat 0%nat * w0 v + K 1%nat 1%nat * w1 v)
      (K 2%nat 0%nat * w0 v + K 2%nat 1%nat * w1 v).

Definition vadd3 (a b : vec3) : vec3 :=
  mk3 (v0 a + v0 b) (v1 a + v1 b) (v2 a + v2 b).

(** [np.linalg.inv] on a 2x2 array. *)
Definition det2 (S : mat) : R :=
  S 0%nat 0%nat * S 1%nat 1%nat - S 0%nat 1%nat * S 1%nat 0%nat.

Definition inv2 (S : mat) : result mat :=
  if Req_dec_T (det2 S) 0 then Raise LinAlgError
  else Ok (of_rows [[  S 1%nat 1%nat / det2 S; - S 0%nat 1%nat / det2 S];
                    [- S 1%nat 0%nat / det2 S;   S 0%nat 0%nat / det2 S]]).

(** [math.atan2] on the reals. *)
Definition atan2 (y x : R) : R :=
  if Rlt_dec 0 x then atan (y / x)
  else if Rlt_dec x 0 then
         if Rle_dec 0 y then atan (y / x) + PI else atan (y / x) - PI
       else if Rlt_dec 0 y then PI / 2
            else if Rlt_dec y 0 then - (PI / 2) else 0.

(** ** Utils functions (the same text in both files) *)

(** [angle_wrap(a)]: "fit angle between -pi and pi". *)
Definition angle_wrap (a : R) : R :=
  if Rgt_dec a PI then a - 2 * PI
  else if Rlt_dec a (- PI) then a + 2 * PI
  else a.

(** [tcomp(tab, tbc, dt)]: composes two transformations. *)
Definition tcomp (tab tbc : vec3) (dt : R) : vec3 :=
  let angle := v2 tab + dt * v2 tbc in
  let angle := angle_wrap angle in
  let s := sin (v2 tab) in
  let c := cos (v2 tab) in
  mk3 (v0 tab + ((dt * c) * v0 tbc + (dt * - s) * v1 tbc))
      (v1 tab + ((dt * s) * v0 tbc + (dt * c) * v1 tbc))
      angle.

(** The landmark map: a 2xM array, kept as the list of its M columns. *)
Definition landmarks : Type := list (R * R).

End RealArrays.

(** ** The random generator

    [np.random.randint(low, high)] returns an integer of [low, high) and
    raises [ValueError] when the interval is empty.  [raw] is the
    generator's output the value is derived from. *)
Definition randint (low high : Z) (raw : Z) : result Z :=
  if (high <=? low)%Z then Raise ValueError
  else Ok (low + raw mod (high - low))%Z.

(** Python's [a % b == 0] on integers. *)
Definition py_mod (a b : Z) : result Z :=
  if (b =? 0)%Z then Raise ZeroDivisionError else Ok (a mod b)%Z.

(* ----------------------------------------------------------------- *)
(** ** TP2/EKFLocalization.py *)

Module EKF.
Section Defs.
Local Open Scope R_scope.

(** evolution model (f) *)
Definition motion_model (x u : vec3) (dt_pred : R) : vec3 :=
  let xPred0 := v0 x + (v0 u * cos (v2 x) - v1 u * sin (v2 x)) * dt_pred in
  let xPred1 := v1 x + (v0 u * sin (v2 x) + v1 u * cos (v2 x)) * dt_pred in
  let xPred2 := v2 x + v2 u * dt_pred in
  mk3 xPred0 xPred1 (angle_wrap xPred2).

(** observation model (h) *)
Definition observation_model (xVeh : vec3) (iFeature : nat) (Map : landmarks)
  : result vec2 :=
  match nth_error Map iFeature with
  | None => Raise IndexError
  | Some (mx, my) =>
      let dx := mx - v0 xVeh in
      let dy := my - v1 xVeh in
      let z0 := sqrt (dx * dx + dy * dy) in
      let z1 := atan2 dy dx - v2 xVeh in
      Ok (mk2 z0 (angle_wrap z1))
  end.

(** h(x) Jacobian wrt x *)
Definition get_obs_jac (xPred : vec3) (iFeature : nat) (Map : landmarks)
  : result mat :=
  match nth_error Map iFeature with
  | None => Raise IndexError
  | Some (mx, my) =>
      let dx := mx - v0 xPred in
      let dy := my - v1 xPred in
      let q := sqrt (dx * dx + dy * dy) in
      Ok (of_rows [[- dx / q; - dy / q; 0];
                   [dy / (dx * dx + dy * dy); - dx / (dx * dx + dy * dy); -1]])
  end.

(** f(x,u) Jacobian wrt x *)
Definition F (x u : vec3) (dt_pred : R) : mat :=
  let theta := v2 x in
  let u0 := v0 u in
  let u1 := v1 u in
  of_rows [[1; 0; - u0 * sin theta * dt_pred - u1 * cos theta * dt_pred];
           [0; 1; u0 * cos theta * dt_pred - u1 * sin theta * dt_pred];
           [0; 0; 1]].

(** f(x,u) Jacobian wrt w (noise on the control input u) *)
Definition G (x u : vec3) (dt_pred : R) : mat :=
  let theta := v2 x in
  of_rows [[dt_pred * cos theta; - dt_pred * sin theta; 0];
           [dt_pred * sin theta; dt_pred * cos theta; 0];
           [0; 0; dt_pred]].

(** Kalman prediction of the main loop. *)
Definition predict (xEst : vec3) (PEst : mat) (u_tilde : vec3) (dt_pred : R)
           (QEst : mat) : vec3 * mat :=
  let xPred := motion_model xEst u_tilde dt_pred in
  let F_x := F xEst u_tilde dt_pred in
  let G_u := G xEst u_tilde dt_pred in
  let PPred := madd (mmul 3 (mmul 3 F_x PEst) (transpose F_x))
                    (mmul 3 (mmul 3 G_u QEst) (transpose G_u)) in
  (xPred, PPred).

(** The covariance part of "perform kalman update", from [H]. *)
Definition covariance_update (PPred H REst : mat) : result mat :=
  let S := madd REst (mmul 3 (mmul 3 H PPred) (transpose H)) in
  Sinv <- inv2 S ;;
  let K := mmul 2 (mmul 3 PPred (transpose H)) Sinv in
  let PEst := mmul 3 (msub eye (mmul 2 K H)) PPred in
  let PEst := mscale (1 / 2) (madd PEst (transpose PEst)) in
  Ok PEst.

(** The gain [K] of the same block. *)
Definition kalman_gain (PPred H REst : mat) : result mat :=
  let S := madd REst (mmul 3 (mmul 3 H PPred) (transpose H)) in
  Sinv <- inv2 S ;;
  Ok (mmul 2 (mmul 3 PPred (transpose H)) Sinv).

(** The body of the main loop after the prediction: the branch on
    [z is not None]. *)
Definition update (xPred : vec3) (PPred : mat) (obs : option (vec2 * nat))
           (Map : landmarks) (REst : mat) : result (vec3 * mat) :=
  match obs with
  | Some (z, iFeature) =>
      zPred <- observation_model xPred iFeature Map ;;
      H <- get_obs_jac xPred iFeature Map ;;
      let Innov := mk2 (w0 z - w0 zPred) (angle_wrap (w1 z - w1 zPred)) in
      K <- kalman_gain PPred H REst ;;
      let xEst := vadd3 xPred (mat_vec2 K Innov) in
      let xEst := mk3 (v0 xEst) (v1 xEst) (angle_wrap (v2 xEst)) in
      PEst <- covariance_update PPred H REst ;;
      Ok (xEst, PEst)
  | None => Ok (xPred, PPred)
  end.

(** [Simulation.get_observation(k)]: [raw] feeds [np.random.randint] and
    [n] is the draw of [np.random.randn(2)]. *)
Record Simulation : Type := mkSim {
  dt_pred : Z;
  dt_meas : Z;
  xTrue : vec3;
  Map : landmarks;
  RTrue : mat
}.

Definition get_observation (self : Simulation) (k : Z) (raw : Z) (n : vec2)
  : result (option (vec2 * Z)) :=
  r <- py_mod (k * dt_pred self) (dt_meas self) ;;
  if (r =? 0)%Z then
    let notValidCondition := false in
    if notValidCondition then Ok None
    else
      iFeature <- randint 0 (Z.of_nat (length (Map self)) - 1) raw ;;
      let zNoise :=
        mk2 (sqrt (RTrue self 0%nat 0%nat) * w0 n + sqrt (RTrue self 0%nat 1%nat) * w1 n)
            (sqrt (RTrue self 1%nat 0%nat) * w0 n + sqrt (RTrue self 1%nat 1%nat) * w1 n) in
      z <- observation_model (xTrue self) (Z.to_nat iFeature) (Map self) ;;
      let z := mk2 (w0 z + w0 zNoise) (w1 z + w1 zNoise) in
      let z := mk2 (w0 z) (angle_wrap (w1 z)) in
      Ok (Some (z, iFeature))
  else Ok None.

End Defs.
End EKF.

(* ----------------------------------------------------------------- *)
(** ** numpy floats carrying a particle weight

    Finite values are exact rationals; [PInf], [NInf] and [NaN] are the
    values numpy gives to a division by zero and to what follows from it.
    The sign of a zero is not tracked: a zero divisor counts as [+0]. *)

Inductive npfloat : Type :=
| Finite (q : Q)
| PInf
| NInf
| NaN.

Definition Qltb (a b : Q) : bool := negb (Qle_bool b a).

Definition np_add (a b : npfloat) : npfloat :=
  match a, b with
  | NaN, _ | _, NaN => NaN
  | PInf, NInf | NInf, PInf => NaN
  | PInf, _ | _, PInf => PInf
  | NInf, _ | _, NInf => NInf
  | Finite x, Finite y => Finite (x + y)
  end.

(** The infinity of the sign of [x], for a finite [x] that is not zero. *)
Definition inf_of_sign (x : Q) : npfloat :=
  if Qltb 0 x then PInf else NInf.

Definition np_neg (a : npfloat) : npfloat :=
  match a with
  | Finite x => Finite (- x)
  | PInf => NInf
  | NInf => PInf
  | NaN => NaN
  end.

Definition np_mul (a b : npfloat) : npfloat :=
  match a, b with
  | NaN, _ | _, NaN => NaN
  | Finite x, Finite y => Finite (x * y)
  | Finite x, PInf | PInf, Finite x =>
      if Qeq_bool x 0 then NaN else inf_of_sign x
  | Finite x, NInf | NInf, Finite x =>
      if Qeq_bool x 0 then NaN else np_neg (inf_of_sign x)
  | PInf, PInf | NInf, NInf => PInf
  | PInf, NInf | NInf, PInf => NInf
  end.

Definition np_div (a b : npfloat) : npfloat :=
  match a, b with
  | NaN, _ | _, NaN => NaN
  | Finite x, Finite y =>
      if Qeq_bool y 0 then
        if Qeq_bool x 0 then NaN else inf_of_sign x
      else Finite (x / y)
  | Finite _, PInf | Finite _, NInf => Finite 0
  | PInf, Finite y => if Qltb y 0 then NInf else PInf
  | NInf, Finite y => if Qltb y 0 then PInf else NInf
  | PInf, PInf | PInf, NInf | NInf, PInf | NInf, NInf => NaN
  end.

(** [a < b]; every comparison with [nan] is false. *)
Definition np_ltb (a b : npfloat) : bool :=
  match a, b with
  | NaN, _ | _, NaN => false
  | Finite x, Finite y => Qltb x y
  | _, NInf => false
  | PInf, _ => false
  | NInf, _ => true
  | Finite _, PInf => true
  end.

(** [a >= b]. *)
Definition np_geb (a b : npfloat) : bool :=
  match a, b with
  | NaN, _ | _, NaN => false
  | Finite x, Finite y => Qle_bool y x
  | PInf, _ => true
  | _, NInf => true
  | NInf, _ => false
  | Finite _, PInf => false
  end.

(** [a > b]. *)
Definition np_gtb (a b : npfloat) : bool := np_ltb b a.

(** [np.sum]. *)
Definition np_sum (l : list npfloat) : npfloat :=
  fold_right np_add (Finite 0) l.

(** [int(np.floor(a))]. *)
Definition np_floor_int (a : npfloat) : result Z :=
  match a with
  | Finite x => Ok (Qfloor x)
  | PInf | NInf => Raise OverflowError
  | NaN => Raise ValueError
  end.

(** [np.random.uniform(low, high)]: [raw] is the sample of [0, 1) it is
    scaled from. *)
Definition uniform (low high raw : Q) : Q := low + (high - low) * raw.

(** [np.random.choice(M)]: an index of [range(M)]. *)
Definition choice (M : nat) (raw : nat) : result nat :=
  match M with
  | O => Raise ValueError
  | S _ => Ok (raw mod M)%nat
  end.

(* ----------------------------------------------------------------- *)
(** ** TP3/ParticleFilter.py *)

Module PF.

Section Models.
Local Open Scope R_scope.

(** evolution model (f): [w_k] is the sample that
    [np.random.multivariate_normal([0, 0, 0], QEst)] returns. *)
Definition motion_model (x u_tilda : vec3) (dt_pred : R) (QEst : mat)
           (w_k : vec3) : vec3 :=
  let x_pos := v0 x in
  let y_pos := v1 x in
  let theta := v2 x in
  let Vx := v0 u_tilda in
  let Vy := v1 u_tilda in
  let omega := v2 u_tilda in
  mk3 (x_pos + (Vx + v0 w_k) * cos theta * dt_pred
             - (Vy + v1 w_k) * sin theta * dt_pred)
      (y_pos + (Vx + v0 w_k) * sin theta * dt_pred
             + (Vy + v1 w_k) * cos theta * dt_pred)
      (angle_wrap theta + (omega + v2 w_k) * dt_pred).

(** observation model (h) *)
Definition observation_model (xVeh : vec3) (iFeature : nat) (Map : landmarks)
  : result vec2 :=
  let x_veh := v0 xVeh in
  let y_veh := v1 xVeh in
  let theta_veh := v2 xVeh in
  match nth_error Map iFeature with
  | None => Raise IndexError
  | Some (x_feat, y_feat) =>
      let dx := x_feat - x_veh in
      let dy := y_feat - y_veh in
      let range_ := sqrt (dx * dx + dy * dy) in
      let bearing := atan2 dy dx - theta_veh in
      let bearing := angle_wrap bearing in
      Ok (mk2 range_ bearing)
  end.

Record Simulation : Type := mkSim {
  dt_pred : Z;
  dt_meas : Z;
  xTrue : vec3;
  Map : landmarks;
  RTrue : mat
}.

(** [Simulation.get_observation(k)], with the draws of [randint] and
    [randn(2)] as for the EKF. *)
Definition get_observation (self : Simulation) (k : Z) (raw : Z) (n : vec2)
  : result (option (vec2 * Z)) :=
  r <- py_mod (k * dt_pred self) (dt_meas self) ;;
  if (r =? 0)%Z then
    let notValidCondition := false in
    if notValidCondition then Ok None
    else
      iFeature <- randint 0 (Z.of_nat (length (Map self)) - 1) raw ;;
      let zNoise :=
        mk2 (sqrt (RTrue self 0%nat 0%nat) * w0 n + sqrt (RTrue self 0%nat 1%nat) * w1 n)
            (sqrt (RTrue self 1%nat 0%nat) * w0 n + sqrt (RTrue self 1%nat 1%nat) * w1 n) in
      z <- observation_model (xTrue self) (Z.to_nat iFeature) (Map self) ;;
      let z := mk2 (w0 z + w0 zNoise) (w1 z + w1 zNoise) in
      let z := mk2 (w0 z) (angle_wrap (w1 z)) in
      Ok (Some (z, iFeature))
  else Ok None.

End Models.

Section Resampling.

(** The global [nParticles]. *)
Variable nParticles : nat.

(** A particle is a column of [xParticles]; resampling only copies it. *)
Variable particle : Type.

(** [nParticles] as a float. *)
Definition N_float : Q := inject_Z (Z.of_nat nParticles).

(** Python's [1 / nParticles]. *)
Definition one_over_N : result Q :=
  match nParticles with
  | O => Raise ZeroDivisionError
  | S _ => Ok (1 / N_float)
  end.

(** Column [m] of the particle array. *)
Definition column (particles : list particle) (m : nat) : result particle :=
  match nth_error particles m with
  | Some p => Ok p
  | None => Raise IndexError
  end.

(** [np.cumsum]. *)
Fixpoint cumsum_from (acc : npfloat) (l : list npfloat) : list npfloat :=
  match l with
  | [] => []
  | x :: rest => let s := np_add acc x in s :: cumsum_from s rest
  end.

Definition cumsum (l : list npfloat) : list npfloat :=
  cumsum_from (Finite 0) l.

(** [np.arange(0.0, 1.0, step)] for [step = 1 / nParticles]. *)
Definition arange_unit (step : Q) : list Q :=
  map (fun i => inject_Z (Z.of_nat i) * step) (seq 0 nParticles).

(** The inner [while re_sample_id[ip] > w_cum[ind]: ind += 1].
    [rest] is [w_cum[ind:]]. *)
Fixpoint advance (target : npfloat) (rest : list npfloat) (ind : nat)
  : result (list npfloat * nat) :=
  match rest with
  | [] => Raise IndexError
  | c :: rest' =>
      if np_gtb target c then advance target rest' (S ind)
      else Ok (rest, ind)
  end.

(** The loop [for ip in range(nParticles)] over [re_sample_id]. *)
Fixpoint select (re_sample_id : list npfloat) (rest : list npfloat) (ind : nat)
  : result (list nat) :=
  match re_sample_id with
  | [] => Ok []
  | target :: ids =>
      st <- advance target rest ind ;;
      indexes <- select ids (fst st) (snd st) ;;
      Ok (snd st :: indexes)
  end.

(** [px[:, indexes]]. *)
Fixpoint take_columns (px : list particle) (indexes : list nat)
  : result (list particle) :=
  match indexes with
  | [] => Ok []
  | i :: rest =>
      p <- column px i ;;
      ps <- take_columns px rest ;;
      Ok (p :: ps)
  end.

(** [re_sampling(px, pw)]: low variance re-sampling.  [raw] is the sample
    behind [np.random.uniform(0, 1 / nParticles)]. *)
Definition re_sampling (px : list particle) (pw : list npfloat) (raw : Q)
  : result (list particle * list npfloat) :=
  let w_cum := cumsum pw in
  step <- one_over_N ;;
  let base := arange_unit step in
  let offset := uniform 0 step raw in
  let re_sample_id := map (fun b => Finite (b + offset)) base in
  indexes <- select re_sample_id w_cum 0 ;;
  px' <- take_columns px indexes ;;
  let ones := repeat (Finite 1) (length pw) in
  let pw' := map (fun o => np_div o (np_sum ones)) ones in
  Ok (px', pw').

(** The [for m in range(M)] loop of [reallocation_resampling]: what is
    appended from index [m] on, [weights] being [weights[m:]].
    [raw_u m] is the sample behind the [np.random.uniform] of iteration
    [m]. *)
Fixpoint reallocate (particles : list particle) (raw_u : nat -> Q)
         (weights : list npfloat) (m : nat)
  : result (list particle * list npfloat) :=
  match weights with
  | [] => Ok ([], [])
  | w :: rest =>
      inv_N <- one_over_N ;;
      here <-
        (if np_geb w (Finite inv_N) then
           N_m_t <- np_floor_int (np_mul (Finite N_float) w) ;;
           match Z.to_nat N_m_t with
           | O => Ok ([], [])
           | S _ as copies =>
               p <- column particles m ;;
               Ok (repeat p copies,
                   repeat (np_div w (Finite (inject_Z N_m_t))) copies)
           end
         else
           let u := uniform 0 inv_N (raw_u m) in
           if np_geb w (Finite u) then
             p <- column particles m ;;
             Ok ([p], [Finite inv_N])
           else Ok ([], [])) ;;
      tail <- reallocate particles raw_u rest (S m) ;;
      Ok (fst here ++ fst tail, snd here ++ snd tail)
  end.

(** The [while len(resampled_particles) < N] loop: [missing] is
    [N - len(resampled_particles)] and [raw_c j] feeds the
    [np.random.choice(M)] of its iteration [j]. *)
Fixpoint pad (particles : list particle) (M : nat) (raw_c : nat -> nat)
         (missing : nat) (j : nat) : result (list particle * list npfloat) :=
  match missing with
  | O => Ok ([], [])
  | S missing' =>
      idx <- choice M (raw_c j) ;;
      p <- column particles idx ;;
      inv_N <- one_over_N ;;
      tail <- pad particles M raw_c missing' (S j) ;;
      Ok (p :: fst tail, Finite inv_N :: snd tail)
  end.

(** [reallocation_resampling(particles, weights)]. *)
Definition reallocation_resampling (particles : list particle)
           (weights : list npfloat) (raw_u : nat -> Q) (raw_c : nat -> nat)
  : result (list particle * list npfloat) :=
  let M := length weights in
  let N := nParticles in
  kept <- reallocate particles raw_u weights 0 ;;
  fill <- pad particles M raw_c (N - length (fst kept)) 0 ;;
  Ok (fst kept ++ fst fill, snd kept ++ snd fill).

End Resampling.

Section MainLoop.

Variable nParticles : nat.

(** [theta_eff] of the main program. *)
Variable theta_eff : Q.

(** The observation handed to the weighting: [z] and [iFeature]. *)
Variable observation : Type.

(** [likelihood obs p] is the value of
    [np.exp(-0.5 * Innov.T @ np.linalg.inv(REst) @ Innov).item()] for the
    particle [p]. *)
Variable likelihood : observation -> vec3 -> npfloat.

(** "do prediction": the first [nParticles] columns go through the
    motion model, [noise p] being the draw of particle [p]. *)
Fixpoint predict_particles (xParticles : list vec3) (u_tilda : vec3)
         (dt_pred : R) (QEst : mat) (noise : nat -> vec3) (p count : nat)
  : result (list vec3) :=
  match count with
  | O => Ok xParticles
  | S count' =>
      match xParticles with
      | [] => Raise IndexError
      | x :: rest =>
          rest' <- predict_particles rest u_tilda dt_pred QEst noise
                                     (S p) count' ;;
          Ok (motion_model x u_tilda dt_pred QEst (noise p) :: rest')
      end
  end.

(** The loop [for p in range(nParticles)] under [if z is not None]:
    [wp[p] *= likelihood]. *)
Fixpoint weight_particles (obs : observation) (xParticles : list vec3)
         (wp : list npfloat) (count : nat) : result (list npfloat) :=
  match count with
  | O => Ok wp
  | S count' =>
      match xParticles, wp with
      | x :: xs, w :: ws =>
          ws' <- weight_particles obs xs ws count' ;;
          Ok (np_mul w (likelihood obs x) :: ws')
      | _, _ => Raise IndexError
      end
  end.

(** Lines 387 to 399: the weighting and [wp /= np.sum(wp)]. *)
Definition weighting (obs : option observation) (xParticles : list vec3)
           (wp : list npfloat) : result (list npfloat) :=
  match obs with
  | Some z => weight_particles z xParticles wp nParticles
  | None => Ok wp
  end.

Definition normalize (wp : list npfloat) : list npfloat :=
  map (fun w => np_div w (np_sum wp)) wp.

(** [Neff = 1.0 / np.sum(wp**2)]. *)
Definition Neff (wp : list npfloat) : npfloat :=
  np_div (Finite 1) (np_sum (map (fun w => np_mul w w) wp)).

(** [Nth = nParticles * theta_eff]. *)
Definition Nth : npfloat := Finite (N_float nParticles * theta_eff).

(** Lines 415 to 421: the resampling decision. *)
Definition resample_stage (xParticles : list vec3) (wp : list npfloat)
           (raw_u : nat -> Q) (raw_c : nat -> nat)
  : result (list vec3 * list npfloat) :=
  if np_ltb (Neff wp) Nth then
    reallocation_resampling nParticles vec3 xParticles wp raw_u raw_c
  else Ok (xParticles, wp).

(** What one turn of the temporal loop does to the weights once the
    particles are predicted. *)
Definition weight_step (obs : option observation) (xParticles : list vec3)
           (wp : list npfloat) (raw_u : nat -> Q) (raw_c : nat -> nat)
  : result (list vec3 * list npfloat) :=
  wp1 <- weighting obs xParticles wp ;;
  let wp2 := normalize wp1 in
  resample_stage xParticles wp2 raw_u raw_c.

(** One turn of the temporal loop on the filter state. *)
Definition step (u_tilda : vec3) (dt_pred : R) (QEst : mat)
           (noise : nat -> vec3) (obs : option observation)
           (xParticles : list vec3) (wp : list npfloat)
           (raw_u : nat -> Q) (raw_c : nat -> nat)
  : result (list vec3 * list npfloat) :=
  xParticles' <- predict_particles xParticles u_tilda dt_pred QEst noise
                                   0 nParticles ;;
  weight_step obs xParticles' wp raw_u raw_c.

End MainLoop.

End PF.

(* ----------------------------------------------------------------- *)
(** ** Properties of a covariance *)

Section Covariance.
Local Open Scope R_scope.

(** [A] equals its transpose on its leading [n x n] block. *)
Definition symmetric (n : nat) (A : mat) : Prop :=
  forall i j, (i < n)%nat -> (j < n)%nat -> A i j = A j i.

(** The quadratic form [v.T @ A @ v]. *)
Definition quad (n : nat) (A : mat) (v : nat -> R) : R :=
  dot n (fun i => dot n (fun j => v i * A i j * v j)).

(** Positive semi-definite, positive definite. *)
Definition psd (n : nat) (A : mat) : Prop :=
  forall v, 0 <= quad n A v.

Definition pd (n : nat) (A : mat) : Prop :=
  forall v, (exists i, (i < n)%nat /\ v i <> 0) -> 0 < quad n A v.

(** Auxiliary: component [k] of [H @ P @ v]. *)
Definition HPv (P H : mat) (v : nat -> R) (k : nat) : R :=
  dot 3 (fun j => mmul 3 H P k j * v j).

(** Auxiliary: component [k] of [T @ a] for a 2x2 [T]. *)
Definition apply2 (T : mat) (a0 a1 : R) (k : nat) : R :=
  T k 0%nat * a0 + T k 1%nat * a1.

(** Auxiliary: the vector of components [y0], [y1]. *)
Definition pair_vec (y0 y1 : R) : nat -> R :=
  fun k => match k with O => y0 | _ => y1 end.

End Covariance.

(* ----------------------------------------------------------------- *)
(** ** Properties of a weight vector *)

Section WeightProperties.
Local Open Scope Q_scope.

Definition Qsum (qs : list Q) : Q := fold_right Qplus 0 qs.

Definition Qsumsq (qs : list Q) : Q := Qsum (map (fun q => q * q) qs).

(** The weight vector of finite values [qs]. *)
Definition weights_of (qs : list Q) : list npfloat := map Finite qs.

(** Nonnegative and summing to one. *)
Definition normalized (qs : list Q) : Prop :=
  Forall (fun q => 0 <= q) qs /\ Qsum qs == 1.

(** Every weight is a zero. *)
Definition all_zero (ws : list npfloat) : Prop :=
  Forall (fun w => exists q, w = Finite q /\ q == 0) ws.

(** The same float: the same special value, or equal finite values. *)
Definition np_same (a b : npfloat) : Prop :=
  match a, b with
  | Finite x, Finite y => x == y
  | PInf, PInf | NInf, NInf | NaN, NaN => True
  | _, _ => False
  end.

Definition same_weights (l l' : list npfloat) : Prop := Forall2 np_same l l'.

(** Four particles and the weights [0.7, 0.1, 0.1, 0.1]. *)
Definition demo_particles : list vec3 :=
  [mk3 0 0 0; mk3 1 0 0; mk3 0 1 0; mk3 1 1 0].

Definition demo_weights : list Q := [7 # 10; 1 # 10; 1 # 10; 1 # 10].

(** Twenty particles at one pose, one of them carrying most of the weight. *)
Definition crowd : list vec3 := repeat (mk3 0 0 0) 20.

Definition crowd_weights : list Q := (22 # 25) :: repeat (3 # 475) 19.

(** Likelihoods that do not depend on the particle: an observation every
    particle explains, and one whose likelihood underflows to zero. *)
Definition unit_likelihood (_ : unit) (_ : vec3) : npfloat := Finite 1.

Definition zero_likelihood (_ : unit) (_ : vec3) : npfloat := Finite 0.

End WeightProperties.

(* ----------------------------------------------------------------- *)
(** ** The simulator's controls and odometry

    [get_robot_control], [simulate_world] and [get_odometry] have the
    same text in both files.  The fields of [self] they read are
    arguments: [nSteps], [dt_pred] (as a float), [xTrue], [xOdom],
    [QTrue]. *)

Module Sim.
Section Defs.
Local Open Scope R_scope.

(** return true control at step k *)
Definition get_robot_control (nSteps k : Z) : result vec3 :=
  if (nSteps =? 0)%Z then Raise ZeroDivisionError
  else Ok (mk3 0 (25 / 1000)
               (1 / 10 * PI / 180 * sin (3 * PI * IZR k / IZR nSteps))).

(** simulate new true robot position: the new [self.xTrue]. *)
Definition simulate_world (xTrue : vec3) (dt_pred : R) (nSteps k : Z)
  : result vec3 :=
  u <- get_robot_control nSteps k ;;
  let xTrue := tcomp xTrue u dt_pred in
  Ok (mk3 (v0 xTrue) (v1 xTrue) (angle_wrap (v2 xTrue))).

(** computes and returns noisy odometry: [n] is the draw of
    [np.random.randn(3)]; the result is [(xnow, u_tilda)], [xnow] being
    the new [self.xOdom] too. *)
Definition get_odometry (xOdom : vec3) (QTrue : mat) (dt_pred : R)
           (nSteps k : Z) (n : vec3) : result (vec3 * vec3) :=
  u <- get_robot_control nSteps k ;;
  let xnow := tcomp xOdom u dt_pred in
  let row (i : nat) :=
    sqrt (QTrue i 0%nat) * v0 n + sqrt (QTrue i 1%nat) * v1 n
    + sqrt (QTrue i 2%nat) * v2 n in
  let uNoise := mk3 (row 0%nat) (row 1%nat) (row 2%nat) in
  let xnow := tcomp xnow uNoise dt_pred in
  let u_tilda := mk3 (v0 u + dt_pred * v0 uNoise)
                     (v1 u + dt_pred * v1 uNoise)
                     (v2 u + dt_pred * v2 uNoise) in
  Ok (xnow, u_tilda).

End Defs.
End Sim.

(* ----------------------------------------------------------------- *)
(** ** The motion models, the covariance update and the resampling walk
       on doubles

    The code of [motion_model] (TP2), [tcomp], [get_obs_jac], the
    covariance part of the Kalman update and the index walk of
    [re_sampling] over IEEE 754 binary64: every [+], [-], [*], [/] and
    [sqrt] of the source is one correctly rounded operation, in the order
    in which Python evaluates it.  What the libraries compute by their
    own algorithms is an argument: the sine and cosine of the heading,
    the inverse of [S]. *)

Module Doubles.
Import Floats.
Section Defs.
Local Open Scope float_scope.

(** [math.pi] and [np.pi]. *)
Definition pi : float := 0x1.921fb54442d18p+1.

(** A column [(x, y, heading)] of doubles. *)
Record fvec3 : Type := fmk3 { f0 : float; f1 : float; f2 : float }.

(** fit angle between -pi and pi *)
Definition angle_wrap (a : float) : float :=
  if pi <? a then a - 2 * pi
  else if a <? - pi then a + 2 * pi
  else a.

(** [motion_model(x, u, dt_pred)] of TP2.  [s] and [c] are the doubles
    that [sin(x[2].item())] and [cos(x[2].item())] return. *)
Definition motion_model (s c : float) (x u : fvec3) (dt_pred : float)
  : fvec3 :=
  let xPred0 := f0 x + (f0 u * c - f1 u * s) * dt_pred in
  let xPred1 := f1 x + (f0 u * s + f1 u * c) * dt_pred in
  let xPred2 := f2 x + f2 u * dt_pred in
  fmk3 xPred0 xPred1 (angle_wrap xPred2).

(** [tcomp(tab, tbc, dt)].  [s] and [c] are the doubles that
    [sin(tab[2, 0])] and [cos(tab[2, 0])] return; the product
    [dt * np.array([[c, -s], [s, c]]) @ tbc[0:2]] scales the matrix first
    and then sums the two products of each row. *)
Definition tcomp (s c : float) (tab tbc : fvec3) (dt : float) : fvec3 :=
  let angle := f2 tab + dt * f2 tbc in
  let angle := angle_wrap angle in
  fmk3 (f0 tab + (dt * c * f0 tbc + dt * (- s) * f1 tbc))
       (f1 tab + (dt * s * f0 tbc + dt * c * f1 tbc))
       angle.

(** [math.sin(1.0)] and [math.cos(1.0)]: the doubles nearest to the sine
    and the cosine of one radian. *)
Definition sin_1 : float := 0x1.aed548f090ceep-1.
Definition cos_1 : float := 0x1.14a280fb5068cp-1.

(** The rational a finite double stands for, in lowest terms. *)
Definition exact (f : float) : option Q :=
  match Prim2SF f with
  | S754_zero _ => Some 0%Q
  | S754_finite sign m e =>
      let q := (inject_Z (Zpos m) * Qpower 2 e)%Q in
      Some (Qred (if sign then (- q)%Q else q))
  | _ => None
  end.

(** A two dimensional array of doubles, read by row and column. *)
Definition fmat : Type := nat -> nat -> float.

Definition of_rows (rows : list (list float)) : fmat :=
  fun i j => nth j (nth i rows []) 0.

(** The products of a row by a column, summed in the order of the
    index. *)
Fixpoint dot (n : nat) (f : nat -> float) : float :=
  match n with
  | O => 0
  | S k => dot k f + f k
  end.

(** [A @ B], [n] being the inner dimension. *)
Definition mmul (n : nat) (A B : fmat) : fmat :=
  fun i j => dot n (fun k => A i k * B k j).

Definition transpose (A : fmat) : fmat := fun i j => A j i.
Definition madd (A B : fmat) : fmat := fun i j => A i j + B i j.
Definition msub (A B : fmat) : fmat := fun i j => A i j - B i j.
Definition mscale (c : float) (A : fmat) : fmat := fun i j => c * A i j.
Definition eye : fmat := fun i j => if Nat.eqb i j then 1 else 0.

(** h(x) Jacobian wrt x, for the landmark [(mx, my)]. *)
Definition get_obs_jac (xPred : fvec3) (mx my : float) : fmat :=
  let dx := mx - f0 xPred in
  let dy := my - f1 xPred in
  let q := sqrt (dx * dx + dy * dy) in
  of_rows [[- dx / q; - dy / q; 0];
           [dy / (dx * dx + dy * dy); - dx / (dx * dx + dy * dy); -1]].


(** The covariance part of "perform kalman update".  [Sinv] is the array
    that [np.linalg.inv(S)] returns. *)
Definition covariance_update (PPred H Sinv : fmat) : fmat :=
  let K := mmul 2 (mmul 3 PPred (transpose H)) Sinv in
  let PEst := mmul 3 (msub eye (mmul 2 K H)) PPred in
  mscale 0.5 (madd PEst (transpose PEst)).


(** [float(n)] for a natural number below [2^53]. *)
Definition of_nat (n : nat) : float := of_uint63 (Uint63.of_Z (Z.of_nat n)).

(** [np.cumsum]. *)
Fixpoint cumsum_from (acc : float) (l : list float) : list float :=
  match l with
  | [] => []
  | x :: rest => let s := acc + x in s :: cumsum_from s rest
  end.

Definition cumsum (l : list float) : list float :=
  match l with
  | [] => []
  | x :: rest => x :: cumsum_from x rest
  end.

(** The first [nParticles] entries of [np.arange(0.0, 1.0, step)]:
    entry [i] is [0.0 + i * step]. *)
Definition arange_unit (nParticles : nat) (step : float) : list float :=
  map (fun i => 0 + of_nat i * step) (seq 0 nParticles).

(** [np.random.uniform(low, high)] from the sample [raw] of [[0, 1)]. *)
Definition uniform (low high raw : float) : float :=
  low + (high - low) * raw.

(** The inner [while re_sample_id[ip] > w_cum[ind]: ind += 1]. *)
Fixpoint advance (target : float) (rest : list float) (ind : nat)
  : result (list float * nat) :=
  match rest with
  | [] => Raise IndexError
  | c :: rest' =>
      if c <? target then advance target rest' (S ind)
      else Ok (rest, ind)
  end.

(** The loop [for ip in range(nParticles)] over [re_sample_id]. *)
Fixpoint select (re_sample_id : list float) (rest : list float) (ind : nat)
  : result (list nat) :=
  match re_sample_id with
  | [] => Ok []
  | target :: ids =>
      st <- advance target rest ind ;;
      indexes <- select ids (fst st) (snd st) ;;
      Ok (snd st :: indexes)
  end.

(** The list [indexes] that [re_sampling(px, pw)] builds before it reads
    [px[:, indexes]]. *)
Definition re_sampling_indexes (nParticles : nat) (pw : list float)
           (raw : float) : result (list nat) :=
  match nParticles with
  | O => Raise ZeroDivisionError
  | S _ =>
      let w_cum := cumsum pw in
      let step := 1 / of_nat nParticles in
      let base := arange_unit nParticles step in
      let offset := uniform 0 step raw in
      let re_sample_id := map (fun b => b + offset) base in
      select re_sample_id w_cum 0
  end.

End Defs.
End Doubles.

(* ================================================================= *)
(** * Part II: theorems *)
(* ================================================================= *)

Section AngleWrap.
Local Open Scope R_scope.

Lemma angle_wrap_id (a : R) : - PI <= a <= PI -> angle_wrap a = a.
Proof.
  intros [Hl Hu]. unfold angle_wrap.
  destruct (Rgt_dec a PI) as [H|H]; [lra|].
  destruct (Rlt_dec a (- PI)) as [H'|H']; [lra|reflexivity].
Qed.

Lemma angle_wrap_closed_range (a : R) :
  - 3 * PI <= a <= 3 * PI -> - PI <= angle_wrap a <= PI.
Proof.
  intros [Hl Hu]. unfold angle_wrap.
  destruct (Rgt_dec a PI) as [H|H]; [lra|].
  destruct (Rlt_dec a (- PI)) as [H'|H']; lra.
Qed.


Lemma angle_wrap_4pi : angle_wrap (4 * PI) = 2 * PI.
Proof.
  pose proof PI_RGT_0 as Hpi. unfold angle_wrap.
  destruct (Rgt_dec (4 * PI) PI) as [H|H]; [lra|].
  exfalso. apply H. lra.
Qed.

Lemma angle_wrap_2pi : angle_wrap (2 * PI) = 0.
Proof.
  pose proof PI_RGT_0 as Hpi. unfold angle_wrap.
  destruct (Rgt_dec (2 * PI) PI) as [H|H]; [lra|].
  exfalso. apply H. lra.
Qed.

Lemma angle_wrap_minus_pi : angle_wrap (- PI) = - PI.
Proof.
  pose proof PI_RGT_0 as Hpi. apply angle_wrap_id. lra.
Qed.

(** C2, as stated, fails at [a = -pi]: the test [a < -pi] is strict, so
    [-pi] is returned, which is outside the half-open interval.  It also
    fails at [a = 4 pi], a multiple of [2 pi] more than one turn away,
    which comes back as [2 pi]. *)
Lemma angle_wrap_half_open_fails :
  ~ (- PI < angle_wrap (- PI) <= PI) /\
  ~ (- PI < angle_wrap (4 * PI) <= PI).
Proof.
  pose proof PI_RGT_0 as Hpi. split.
  - rewrite angle_wrap_minus_pi. intros [H _]. lra.
  - rewrite angle_wrap_4pi. intros [_ H]. lra.
Qed.

(** C2 (amended): for every real [a] with [-3 pi <= a <= 3 pi],
    [angle_wrap a] lies in the closed interval [[-pi, pi]]; it lies in
    the half-open [(-pi, pi]] unless [a] is [-pi] or [-3 pi], where the
    result is [-pi]. *)
Theorem angle_wrap_range (a : R) :
  - 3 * PI <= a <= 3 * PI ->
  (- PI <= angle_wrap a <= PI) /\
  (a <> - PI -> a <> - 3 * PI -> - PI < angle_wrap a) /\
  (a = - PI \/ a = - 3 * PI -> angle_wrap a = - PI).
Proof.
  intros Ha. pose proof PI_RGT_0 as Hpi.
  split; [apply angle_wrap_closed_range; exact Ha|].
  unfold angle_wrap.
  destruct (Rgt_dec a PI) as [H|H];
    [|destruct (Rlt_dec a (- PI)) as [H'|H']]; split; intros; lra.
Qed.

(** The range of [angle_wrap] at [a = 2 pi]. *)
Lemma angle_wrap_range_witness :
  (- PI <= angle_wrap (2 * PI) <= PI) /\
  (2 * PI <> - PI -> 2 * PI <> - 3 * PI -> - PI < angle_wrap (2 * PI)) /\
  (2 * PI = - PI \/ 2 * PI = - 3 * PI -> angle_wrap (2 * PI) = - PI).
Proof.
  apply (angle_wrap_range (2 * PI)).
  pose proof PI_RGT_0 as Hpi. lra.
Defined.

(** C8 at the failing input [a = 4 pi]: one turn is taken off at each
    call, so the second call changes the result of the first. *)
Theorem angle_wrap_twice_at_4pi :
  angle_wrap (4 * PI) = 2 * PI /\
  angle_wrap (angle_wrap (4 * PI)) = 0 /\
  angle_wrap (angle_wrap (4 * PI)) <> angle_wrap (4 * PI).
Proof.
  pose proof PI_RGT_0 as Hpi.
  rewrite angle_wrap_4pi, angle_wrap_2pi.
  repeat split; lra.
Qed.

(** Within one turn and a half of zero the second call is the identity. *)
Lemma angle_wrap_idempotent_near (a : R) :
  - 3 * PI <= a <= 3 * PI -> angle_wrap (angle_wrap a) = angle_wrap a.
Proof.
  intros Ha. apply angle_wrap_id. apply angle_wrap_closed_range. exact Ha.
Qed.

End AngleWrap.

Section MotionModels.
Local Open Scope R_scope.

(** As formulas over the reals, the EKF motion model and [tcomp] are the
    same function, the wrapped heading included. *)
Lemma motion_model_eq_tcomp (x u : vec3) (dt : R) :
  EKF.motion_model x u dt = tcomp x u dt.
Proof.
  unfold EKF.motion_model, tcomp. cbv zeta.
  f_equal; [ring | ring | f_equal; ring].
Qed.

Lemma three_lt_PI : 3 < PI.
Proof. pose proof PI2_3_2. lra. Qed.

(** C3 at the failing input [x = (0, 0, 3)], [u = (0, 0, 2)], [dt = 1]
    and a zero noise draw: the heading is wrapped before the increment
    is added, and the pose returned has heading [5 > pi]. *)
Theorem pf_motion_model_heading_unwrapped :
  v2 (PF.motion_model (mk3 0 0 3) (mk3 0 0 2) 1 eye (mk3 0 0 0)) = 5 /\
  ~ (- PI < v2 (PF.motion_model (mk3 0 0 3) (mk3 0 0 2) 1 eye (mk3 0 0 0)) <= PI).
Proof.
  pose proof three_lt_PI as H3. pose proof PI_4 as H4.
  assert (E : v2 (PF.motion_model (mk3 0 0 3) (mk3 0 0 2) 1 eye (mk3 0 0 0)) = 5).
  { unfold PF.motion_model. cbn [v0 v1 v2].
    rewrite angle_wrap_id by lra. ring. }
  split; [exact E|]. rewrite E. intros [_ H]. lra.
Qed.

(** The sibling of the EKF does wrap its result. *)
Lemma ekf_motion_model_heading_wrapped (x u : vec3) (dt : R) :
  - 3 * PI <= v2 x + v2 u * dt <= 3 * PI ->
  - PI <= v2 (EKF.motion_model x u dt) <= PI.
Proof.
  intros H. unfold EKF.motion_model. cbn [v2].
  apply angle_wrap_closed_range. exact H.
Qed.

End MotionModels.

Section Observation.

Lemma randint_range (low high raw v : Z) :
  randint low high raw = Ok v -> (low <= v < high)%Z.
Proof.
  unfold randint. destruct (Z.leb_spec high low) as [H|H]; [discriminate|].
  intros E. injection E as <-.
  pose proof (Z.mod_pos_bound raw (high - low)) as Hm. lia.
Qed.

Lemma randint_returns (low high raw : Z) :
  (low < high)%Z -> exists v, randint low high raw = Ok v.
Proof.
  intros H. unfold randint.
  destruct (Z.leb_spec high low) as [H'|H']; [lia|]. eauto.
Qed.

Lemma ekf_get_observation_index self k raw n z i :
  EKF.get_observation self k raw n = Ok (Some (z, i)) ->
  (0 <= i <= Z.of_nat (length (EKF.Map self)) - 2)%Z.
Proof.
  unfold EKF.get_observation.
  destruct (py_mod (k * EKF.dt_pred self) (EKF.dt_meas self)) as [r|e];
    cbn [bind]; [|discriminate].
  destruct (r =? 0)%Z; [|discriminate].
  destruct (randint 0 (Z.of_nat (length (EKF.Map self)) - 1) raw)
    as [iF|e] eqn:Hr; cbn [bind]; [|discriminate].
  apply randint_range in Hr.
  destruct (EKF.observation_model (EKF.xTrue self) (Z.to_nat iF) (EKF.Map self))
    as [z'|e]; cbn [bind]; [|discriminate].
  intros E. injection E as _ <-. lia.
Qed.

Lemma pf_get_observation_index self k raw n z i :
  PF.get_observation self k raw n = Ok (Some (z, i)) ->
  (0 <= i <= Z.of_nat (length (PF.Map self)) - 2)%Z.
Proof.
  unfold PF.get_observation.
  destruct (py_mod (k * PF.dt_pred self) (PF.dt_meas self)) as [r|e];
    cbn [bind]; [|discriminate].
  destruct (r =? 0)%Z; [|discriminate].
  destruct (randint 0 (Z.of_nat (length (PF.Map self)) - 1) raw)
    as [iF|e] eqn:Hr; cbn [bind]; [|discriminate].
  apply randint_range in Hr.
  destruct (PF.observation_model (PF.xTrue self) (Z.to_nat iF) (PF.Map self))
    as [z'|e]; cbn [bind]; [|discriminate].
  intros E. injection E as _ <-. lia.
Qed.

(** With at least two landmarks and a measurement due at step [k], an
    observation is produced, whatever the generator gives. *)
Lemma ekf_get_observation_produces self k raw n :
  (2 <= length (EKF.Map self))%nat ->
  EKF.dt_meas self <> 0%Z ->
  ((k * EKF.dt_pred self) mod EKF.dt_meas self = 0)%Z ->
  exists z i, EKF.get_observation self k raw n = Ok (Some (z, i)).
Proof.
  intros HM Hd Hk. unfold EKF.get_observation, py_mod.
  destruct (Z.eqb_spec (EKF.dt_meas self) 0) as [E|_]; [contradiction|].
  cbn [bind]. rewrite Hk. cbn [Z.eqb].
  destruct (randint_returns 0 (Z.of_nat (length (EKF.Map self)) - 1) raw)
    as [iF Hr]; [lia|].
  rewrite Hr. cbn [bind]. apply randint_range in Hr.
  unfold EKF.observation_model.
  destruct (nth_error (EKF.Map self) (Z.to_nat iF)) as [[mx my]|] eqn:Hn.
  - cbn [bind]. eauto.
  - apply nth_error_None in Hn. lia.
Qed.

Lemma pf_get_observation_produces self k raw n :
  (2 <= length (PF.Map self))%nat ->
  PF.dt_meas self <> 0%Z ->
  ((k * PF.dt_pred self) mod PF.dt_meas self = 0)%Z ->
  exists z i, PF.get_observation self k raw n = Ok (Some (z, i)).
Proof.
  intros HM Hd Hk. unfold PF.get_observation, py_mod.
  destruct (Z.eqb_spec (PF.dt_meas self) 0) as [E|_]; [contradiction|].
  cbn [bind]. rewrite Hk. cbn [Z.eqb].
  destruct (randint_returns 0 (Z.of_nat (length (PF.Map self)) - 1) raw)
    as [iF Hr]; [lia|].
  rewrite Hr. cbn [bind]. apply randint_range in Hr.
  unfold PF.observation_model.
  destruct (nth_error (PF.Map self) (Z.to_nat iF)) as [[mx my]|] eqn:Hn.
  - cbn [bind]. eauto.
  - apply nth_error_None in Hn. lia.
Qed.

(** C10: an observation produced by [get_observation] over a map of [M]
    landmarks carries an index of [0 .. M-2]; the last landmark, of index
    [M-1], is never observed.  Both simulators. *)
Theorem get_observation_never_last :
  (forall self k raw n z i,
      EKF.get_observation self k raw n = Ok (Some (z, i)) ->
      (0 <= i <= Z.of_nat (length (EKF.Map self)) - 2)%Z /\
      i <> (Z.of_nat (length (EKF.Map self)) - 1)%Z) /\
  (forall self k raw n z i,
      PF.get_observation self k raw n = Ok (Some (z, i)) ->
      (0 <= i <= Z.of_nat (length (PF.Map self)) - 2)%Z /\
      i <> (Z.of_nat (length (PF.Map self)) - 1)%Z).
Proof.
  split; intros self k raw n z i H.
  - apply ekf_get_observation_index in H. lia.
  - apply pf_get_observation_index in H. lia.
Qed.

End Observation.

Section ObservationWitness.
Local Open Scope R_scope.

(** Three landmarks and the generator output 7: landmark 1 is observed. *)
Lemma get_observation_never_last_witness :
  (exists z,
      EKF.get_observation
        (EKF.mkSim 1 1 (mk3 0 0 0) [(10, 0); (0, 10); (5, 5)] eye)
        3 7 (mk2 0 0) = Ok (Some (z, 1%Z)) /\
      (0 <= 1 <= Z.of_nat 3 - 2)%Z /\ 1%Z <> (Z.of_nat 3 - 1)%Z) /\
  (exists z,
      PF.get_observation
        (PF.mkSim 1 1 (mk3 0 0 0) [(10, 0); (0, 10); (5, 5)] eye)
        3 7 (mk2 0 0) = Ok (Some (z, 1%Z)) /\
      (0 <= 1 <= Z.of_nat 3 - 2)%Z /\ 1%Z <> (Z.of_nat 3 - 1)%Z).
Proof.
  split.
  - eexists. split; [reflexivity|].
    eapply (proj1 get_observation_never_last
                  (EKF.mkSim 1 1 (mk3 0 0 0) [(10, 0); (0, 10); (5, 5)] eye)
                  3%Z 7%Z (mk2 0 0)).
    reflexivity.
  - eexists. split; [reflexivity|].
    eapply (proj2 get_observation_never_last
                  (PF.mkSim 1 1 (mk3 0 0 0) [(10, 0); (0, 10); (5, 5)] eye)
                  3%Z 7%Z (mk2 0 0)).
    reflexivity.
Defined.

End ObservationWitness.

Section KalmanCovariance.
Local Open Scope R_scope.

Ltac sym3 P Hs :=
  let E := fresh "E" in
  assert (E : P 1%nat 0%nat = P 0%nat 1%nat) by (apply Hs; auto);
  rewrite ?E; clear E;
  assert (E : P 2%nat 0%nat = P 0%nat 2%nat) by (apply Hs; auto);
  rewrite ?E; clear E;
  assert (E : P 2%nat 1%nat = P 1%nat 2%nat) by (apply Hs; auto);
  rewrite ?E; clear E.

Lemma quad_symmetrized (M : mat) (v : nat -> R) :
  quad 3 (mscale (1 / 2) (madd M (transpose M))) v = quad 3 M v.
Proof.
  cbv [quad mscale madd transpose dot]. field.
Qed.

Lemma symmetrized_symmetric (n : nat) (M : mat) :
  symmetric n (mscale (1 / 2) (madd M (transpose M))).
Proof.
  intros i j _ _. cbv [mscale madd transpose]. ring.
Qed.

Lemma quad_gain (P H T : mat) (v : nat -> R) :
  symmetric 3 P ->
  quad 3 (mmul 3 (msub eye (mmul 2 (mmul 2 (mmul 3 P (transpose H)) T) H)) P) v =
  quad 3 P v
  - (HPv P H v 0%nat * apply2 T (HPv P H v 0%nat) (HPv P H v 1%nat) 0%nat
     + HPv P H v 1%nat * apply2 T (HPv P H v 0%nat) (HPv P H v 1%nat) 1%nat).
Proof.
  intros Hs.
  cbv [quad HPv apply2 mmul msub transpose eye dot Nat.eqb].
  sym3 P Hs. ring.
Qed.

Lemma quad_shift (P H : mat) (v : nat -> R) (y0 y1 : R) :
  symmetric 3 P ->
  quad 3 P (fun i => v i - (H 0%nat i * y0 + H 1%nat i * y1)) =
  quad 3 P v
  - 2 * (y0 * HPv P H v 0%nat + y1 * HPv P H v 1%nat)
  + quad 2 (mmul 3 (mmul 3 H P) (transpose H)) (pair_vec y0 y1).
Proof.
  intros Hs.
  cbv [quad HPv pair_vec mmul transpose dot].
  sym3 P Hs. ring.
Qed.

Lemma quad_congruence (P H : mat) (y : nat -> R) :
  quad 2 (mmul 3 (mmul 3 H P) (transpose H)) y =
  quad 3 P (fun i => H 0%nat i * y 0%nat + H 1%nat i * y 1%nat).
Proof.
  cbv [quad mmul transpose dot]. ring.
Qed.

Lemma quad_madd (n : nat) (A B : mat) (y : nat -> R) :
  quad n (madd A B) y = quad n A y + quad n B y.
Proof.
  unfold quad.
  assert (D : forall m f g, dot m (fun i => f i + g i) = dot m f + dot m g).
  { induction m as [|m IH]; intros f g; cbn [dot]; [ring|]. rewrite IH. ring. }
  assert (X : forall m f g, (forall i, f i = g i) -> dot m f = dot m g).
  { induction m as [|m IH]; intros f g E; cbn [dot]; [ring|].
    rewrite (IH f g E), E. ring. }
  rewrite <- D. apply X. intros i. rewrite <- D. apply X. intros j.
  unfold madd. ring.
Qed.

Lemma quad2_expand (S : mat) (y0 y1 : R) :
  quad 2 S (pair_vec y0 y1) =
  y0 * (S 0%nat 0%nat * y0 + S 0%nat 1%nat * y1)
  + y1 * (S 1%nat 0%nat * y0 + S 1%nat 1%nat * y1).
Proof. cbv [quad dot pair_vec]. ring. Qed.

Lemma inv2_Ok (S T : mat) :
  inv2 S = Ok T ->
  det2 S <> 0 /\
  T = of_rows [[  S 1%nat 1%nat / det2 S; - S 0%nat 1%nat / det2 S];
               [- S 1%nat 0%nat / det2 S;   S 0%nat 0%nat / det2 S]].
Proof.
  unfold inv2. destruct (Req_dec_T (det2 S) 0) as [E|N]; [discriminate|].
  intros X. injection X as <-. split; [exact N|reflexivity].
Qed.

Lemma inv2_solves (S T : mat) (a0 a1 : R) :
  inv2 S = Ok T ->
  S 0%nat 0%nat * apply2 T a0 a1 0%nat + S 0%nat 1%nat * apply2 T a0 a1 1%nat = a0 /\
  S 1%nat 0%nat * apply2 T a0 a1 0%nat + S 1%nat 1%nat * apply2 T a0 a1 1%nat = a1.
Proof.
  intros HT. apply inv2_Ok in HT. destruct HT as [Hd ->].
  cbv [apply2 of_rows nth]. unfold det2 in *. split; field; exact Hd.
Qed.

Lemma pd2_det (S : mat) : pd 2 S -> det2 S <> 0.
Proof.
  intros Hpd Hdet.
  destruct (Req_dec_T (S 1%nat 1%nat) 0) as [E11|N11].
  - pose proof (Hpd (pair_vec 0 1)) as Hq.
    rewrite quad2_expand in Hq.
    assert (0 < 0 * (S 0%nat 0%nat * 0 + S 0%nat 1%nat * 1)
                + 1 * (S 1%nat 0%nat * 0 + S 1%nat 1%nat * 1)) as Hq'.
    { apply Hq. exists 1%nat. split; [auto|]. cbn. lra. }
    lra.
  - pose proof (Hpd (pair_vec (S 1%nat 1%nat) (- S 1%nat 0%nat))) as Hq.
    rewrite quad2_expand in Hq.
    assert (0 < S 1%nat 1%nat * (S 0%nat 0%nat * S 1%nat 1%nat + S 0%nat 1%nat * - S 1%nat 0%nat)
                + - S 1%nat 0%nat * (S 1%nat 0%nat * S 1%nat 1%nat + S 1%nat 1%nat * - S 1%nat 0%nat)) as Hq'.
    { apply Hq. exists 0%nat. split; [auto|]. cbn. exact N11. }
    unfold det2 in Hdet.
    replace (S 0%nat 0%nat * S 1%nat 1%nat + S 0%nat 1%nat * - S 1%nat 0%nat) with 0 in Hq' by lra.
    replace (S 1%nat 0%nat * S 1%nat 1%nat + S 1%nat 1%nat * - S 1%nat 0%nat) with 0 in Hq' by ring.
    lra.
Qed.

Lemma innovation_covariance_pd (P H REst : mat) :
  psd 3 P -> pd 2 REst ->
  pd 2 (madd REst (mmul 3 (mmul 3 H P) (transpose H))).
Proof.
  intros HP HR y Hy. rewrite quad_madd, quad_congruence.
  pose proof (HR y Hy) as H1.
  pose proof (HP (fun i => H 0%nat i * y 0%nat + H 1%nat i * y 1%nat)) as H2.
  lra.
Qed.

Lemma covariance_update_returns (PPred H REst : mat) :
  psd 3 PPred -> pd 2 REst ->
  exists Sinv,
    inv2 (madd REst (mmul 3 (mmul 3 H PPred) (transpose H))) = Ok Sinv /\
    EKF.covariance_update PPred H REst =
    Ok (let PEst := mmul 3 (msub eye (mmul 2 (mmul 2 (mmul 3 PPred (transpose H)) Sinv) H)) PPred in
        mscale (1 / 2) (madd PEst (transpose PEst))).
Proof.
  intros HP HR.
  pose proof (pd2_det _ (innovation_covariance_pd PPred H REst HP HR)) as Hd.
  unfold EKF.covariance_update.
  destruct (inv2 (madd REst (mmul 3 (mmul 3 H PPred) (transpose H)))) as [T|e] eqn:E.
  - exists T. split; reflexivity.
  - unfold inv2 in E.
    destruct (Req_dec_T _ 0) as [E0|N0]; [contradiction|discriminate].
Qed.

Lemma covariance_update_symmetric (PPred H REst PEst : mat) :
  EKF.covariance_update PPred H REst = Ok PEst -> symmetric 3 PEst.
Proof.
  unfold EKF.covariance_update.
  destruct (inv2 _) as [T|e]; cbn [bind]; [|discriminate].
  intros E. injection E as <-. apply symmetrized_symmetric.
Qed.

Lemma covariance_update_psd (PPred H REst PEst : mat) :
  symmetric 3 PPred -> psd 3 PPred -> psd 2 REst ->
  EKF.covariance_update PPred H REst = Ok PEst -> psd 3 PEst.
Proof.
  intros Hs HP HR. unfold EKF.covariance_update.
  destruct (inv2 _) as [T|e] eqn:HT; cbn [bind]; [|discriminate].
  intros E. injection E as <-. intros v.
  rewrite quad_symmetrized, (quad_gain PPred H T v Hs).
  set (a0 := HPv PPred H v 0%nat). set (a1 := HPv PPred H v 1%nat).
  set (y0 := apply2 T a0 a1 0%nat). set (y1 := apply2 T a0 a1 1%nat).
  destruct (inv2_solves _ T a0 a1 HT) as [S0 S1]. fold y0 y1 in S0, S1.
  pose proof (quad_shift PPred H v y0 y1 Hs) as Hshift. fold a0 a1 in Hshift.
  pose proof (HP (fun i => v i - (H 0%nat i * y0 + H 1%nat i * y1))) as Hpos.
  pose proof (HR (pair_vec y0 y1)) as HRpos.
  pose proof (quad_madd 2 REst (mmul 3 (mmul 3 H PPred) (transpose H)) (pair_vec y0 y1)) as Hsum.
  rewrite (quad2_expand (madd _ _)) in Hsum.
  rewrite S0, S1 in Hsum.
  lra.
Qed.

End KalmanCovariance.

Section KalmanUpdate.
Local Open Scope R_scope.

(** Symmetry is forced by the last assignment, whatever [PPred] is. *)
Lemma update_covariance_symmetric xPred PPred z iFeature Map REst xEst PEst :
  EKF.update xPred PPred (Some (z, iFeature)) Map REst = Ok (xEst, PEst) ->
  symmetric 3 PEst.
Proof.
  unfold EKF.update.
  destruct (EKF.observation_model xPred iFeature Map) as [zPred|e];
    cbn [bind]; [|discriminate].
  destruct (EKF.get_obs_jac xPred iFeature Map) as [H|e];
    cbn [bind]; [|discriminate].
  destruct (EKF.kalman_gain PPred H REst) as [K|e]; cbn [bind]; [|discriminate].
  destruct (EKF.covariance_update PPred H REst) as [P|e] eqn:HP;
    cbn [bind]; [|discriminate].
  intros E. injection E as _ <-.
  exact (covariance_update_symmetric _ _ _ _ HP).
Qed.

(** Over the reals, a measurement update from a symmetric positive
    semi-definite [PPred], a positive definite [REst] and a landmark of
    the map returns, and the covariance [PEst] it returns is symmetric and
    positive semi-definite: in exact arithmetic positive
    semi-definiteness is inherited from [PPred]. *)
Lemma update_covariance_psd_over_reals
        xPred PPred z iFeature Map REst mx my :
  symmetric 3 PPred -> psd 3 PPred -> pd 2 REst ->
  nth_error Map iFeature = Some (mx, my) ->
  mx <> v0 xPred \/ my <> v1 xPred ->
  exists xEst PEst,
    EKF.update xPred PPred (Some (z, iFeature)) Map REst = Ok (xEst, PEst) /\
    symmetric 3 PEst /\ psd 3 PEst.
Proof.
  intros Hs Hpsd Hpd Hmap _.
  unfold EKF.update, EKF.observation_model, EKF.get_obs_jac.
  rewrite Hmap. cbn [bind].
  set (H := of_rows _).
  destruct (covariance_update_returns PPred H REst Hpsd Hpd)
    as [Sinv [HS Hcov]].
  unfold EKF.kalman_gain. rewrite HS. cbn [bind].
  destruct (EKF.covariance_update PPred H REst) as [P|e] eqn:HP;
    [|discriminate].
  cbn [bind]. eexists. exists P. split; [reflexivity|]. split.
  - exact (covariance_update_symmetric _ _ _ _ HP).
  - apply (covariance_update_psd PPred H REst P Hs Hpsd); [|exact HP].
    intros v.
    destruct (Req_dec_T (v 0%nat) 0) as [E0|N0];
      [destruct (Req_dec_T (v 1%nat) 0) as [E1|N1]|].
    + cbv [quad dot]. rewrite E0, E1. lra.
    + left. apply Hpd. exists 1%nat. split; [auto|exact N1].
    + left. apply Hpd. exists 0%nat. split; [auto|exact N0].
Qed.

Lemma eye_symmetric (n : nat) : symmetric n eye.
Proof.
  intros i j _ _. unfold eye. rewrite (Nat.eqb_sym i j). reflexivity.
Qed.



End KalmanUpdate.

Section KalmanPrediction.
Local Open Scope R_scope.

Lemma sandwich_quad (A P : mat) (v : nat -> R) :
  quad 3 (mmul 3 (mmul 3 A P) (transpose A)) v =
  quad 3 P (fun i => dot 3 (fun k => A k i * v k)).
Proof.
  cbv [quad mmul transpose dot]. ring.
Qed.

Lemma sandwich_symmetric (A P : mat) :
  symmetric 3 P -> symmetric 3 (mmul 3 (mmul 3 A P) (transpose A)).
Proof.
  intros Hs i j _ _.
  assert (E10 : P 1%nat 0%nat = P 0%nat 1%nat) by (apply Hs; auto).
  assert (E20 : P 2%nat 0%nat = P 0%nat 2%nat) by (apply Hs; auto).
  assert (E21 : P 2%nat 1%nat = P 1%nat 2%nat) by (apply Hs; auto).
  cbv [mmul transpose dot]. rewrite E10, E20, E21. ring.
Qed.

Lemma madd_symmetric (n : nat) (A B : mat) :
  symmetric n A -> symmetric n B -> symmetric n (madd A B).
Proof.
  intros HA HB i j Hi Hj. unfold madd. rewrite (HA i j Hi Hj), (HB i j Hi Hj).
  reflexivity.
Qed.

(** The prediction keeps a covariance symmetric and positive
    semi-definite. *)
Lemma predict_covariance (xEst : vec3) (PEst : mat) (u_tilde : vec3)
      (dt : R) (QEst : mat) :
  symmetric 3 PEst -> psd 3 PEst -> symmetric 3 QEst -> psd 3 QEst ->
  symmetric 3 (snd (EKF.predict xEst PEst u_tilde dt QEst)) /\
  psd 3 (snd (EKF.predict xEst PEst u_tilde dt QEst)).
Proof.
  intros HsP HP HsQ HQ. unfold EKF.predict. cbn [snd]. split.
  - apply madd_symmetric; apply sandwich_symmetric; assumption.
  - intros v. rewrite quad_madd, !sandwich_quad.
    pose proof (HP (fun i => dot 3 (fun k => EKF.F xEst u_tilde dt k i * v k))).
    pose proof (HQ (fun i => dot 3 (fun k => EKF.G xEst u_tilde dt k i * v k))).
    lra.
Qed.

(** Without an observation the update hands the prediction on. *)
Lemma update_without_observation (xPred : vec3) (PPred : mat)
      (Map : landmarks) (REst : mat) :
  EKF.update xPred PPred None Map REst = Ok (xPred, PPred).
Proof. reflexivity. Qed.

End KalmanPrediction.

Section Weights.
Local Open Scope Q_scope.

Lemma Qltb_true (a b : Q) : Qltb a b = true <-> a < b.
Proof.
  unfold Qltb. rewrite negb_true_iff. split.
  - intros H. apply Qnot_le_lt. intros L. apply Qle_bool_iff in L. congruence.
  - intros H. destruct (Qle_bool b a) eqn:E; [|reflexivity].
    apply Qle_bool_iff in E. lra.
Qed.

Lemma Qltb_false (a b : Q) : Qltb a b = false <-> b <= a.
Proof.
  unfold Qltb. rewrite negb_false_iff. apply Qle_bool_iff.
Qed.

Lemma Qeq_bool_false (a b : Q) : ~ a == b -> Qeq_bool a b = false.
Proof.
  intros H. destruct (Qeq_bool a b) eqn:E; [|reflexivity].
  apply Qeq_bool_iff in E. contradiction.
Qed.

Lemma Qeq_bool_true (a b : Q) : a == b -> Qeq_bool a b = true.
Proof. apply Qeq_bool_iff. Qed.


Lemma np_sum_finite (qs : list Q) :
  np_sum (weights_of qs) = Finite (Qsum qs).
Proof.
  induction qs as [|q qs IH]; [reflexivity|].
  cbn [weights_of map np_sum fold_right] in *.
  fold (np_sum (map Finite qs)). unfold weights_of in IH. rewrite IH.
  reflexivity.
Qed.

Lemma Qsum_nonneg (qs : list Q) : Forall (fun q => 0 <= q) qs -> 0 <= Qsum qs.
Proof.
  induction 1 as [|q qs Hq _ IH]; cbn [Qsum fold_right]; [lra|].
  fold (Qsum qs). lra.
Qed.





Lemma squares_finite (qs : list Q) :
  map (fun w => np_mul w w) (weights_of qs)
  = weights_of (map (fun q => q * q) qs).
Proof.
  unfold weights_of. rewrite !map_map. reflexivity.
Qed.

Lemma Neff_finite (qs : list Q) :
  PF.Neff (weights_of qs) = np_div (Finite 1) (Finite (Qsumsq qs)).
Proof.
  unfold PF.Neff. rewrite squares_finite, np_sum_finite. reflexivity.
Qed.



Lemma demo_weights_normalized : normalized demo_weights.
Proof.
  split.
  - repeat constructor; discriminate.
  - reflexivity.
Qed.

End Weights.

Section Degeneracy.
Local Open Scope Q_scope.

Lemma all_zero_sum (ws : list npfloat) :
  all_zero ws -> exists q, np_sum ws = Finite q /\ q == 0.
Proof.
  induction 1 as [|w ws [q [-> Hq]] _ [s [Hs Hs0]]].
  - exists 0. split; reflexivity.
  - exists (q + s). cbn [np_sum fold_right]. fold (np_sum ws). rewrite Hs.
    split; [reflexivity|lra].
Qed.

Lemma normalize_all_zero (ws : list npfloat) :
  all_zero ws -> PF.normalize ws = repeat NaN (length ws).
Proof.
  intros Hz. destruct (all_zero_sum ws Hz) as [s [Hs Hs0]].
  unfold PF.normalize. rewrite Hs. clear Hs.
  induction Hz as [|w ws [q [-> Hq]] _ IH]; [reflexivity|].
  cbn [map length repeat]. rewrite IH. f_equal.
  unfold np_div. rewrite (Qeq_bool_true s 0 Hs0), (Qeq_bool_true q 0 Hq).
  reflexivity.
Qed.

Lemma nan_never_resampled (nParticles : nat) (theta_eff : Q) (n : nat) :
  np_ltb (PF.Neff (repeat NaN n)) (PF.Nth nParticles theta_eff) = false.
Proof.
  destruct n as [|n]; reflexivity.
Qed.

Lemma normalize_nan (n : nat) :
  PF.normalize (repeat NaN n) = repeat NaN n.
Proof.
  unfold PF.normalize. generalize (np_sum (repeat NaN n)). intros s.
  induction n as [|n IH]; [reflexivity|].
  cbn [repeat map]. rewrite IH. reflexivity.
Qed.

(** C5 (amended): when every weight is zero after the weighting, nothing
    detects it: the normalization divides zero by zero, the step returns
    normally with every weight [nan] and without resampling, and a later
    normalization leaves the weights [nan]. *)
Theorem zero_weights_become_nan
        (nParticles : nat) (theta_eff : Q) (observation : Type)
        (likelihood : observation -> vec3 -> npfloat)
        (obs : option observation) (xParticles : list vec3)
        (wp ws : list npfloat) (raw_u : nat -> Q) (raw_c : nat -> nat) :
  PF.weighting nParticles observation likelihood obs xParticles wp = Ok ws ->
  all_zero ws ->
  PF.weight_step nParticles theta_eff observation likelihood obs
                 xParticles wp raw_u raw_c
  = Ok (xParticles, repeat NaN (length ws)) /\
  PF.normalize (repeat NaN (length ws)) = repeat NaN (length ws).
Proof.
  intros Hw Hz. split; [|apply normalize_nan].
  unfold PF.weight_step. rewrite Hw. cbn [bind].
  rewrite (normalize_all_zero ws Hz).
  unfold PF.resample_stage. rewrite nan_never_resampled. reflexivity.
Qed.

(** Four particles weighted by a likelihood that is zero everywhere. *)
Lemma zero_weights_become_nan_witness :
  PF.weight_step 4 (1 # 10) unit zero_likelihood (Some tt)
                 demo_particles (weights_of demo_weights)
                 (fun _ => 1 # 5) (fun j => j)
  = Ok (demo_particles, repeat NaN 4) /\
  PF.normalize (repeat NaN 4) = repeat NaN 4.
Proof.
  apply (zero_weights_become_nan 4 (1 # 10) unit zero_likelihood (Some tt)
           demo_particles (weights_of demo_weights)
           (weights_of [(7 # 10) * 0; (1 # 10) * 0; (1 # 10) * 0; (1 # 10) * 0])).
  - reflexivity.
  - repeat constructor; eexists; (split; [reflexivity|reflexivity]).
Defined.

(** C5, as stated, fails: with a likelihood that is zero for every
    particle the step returns [nan] weights, not a uniform reset. *)
Lemma zero_weights_not_handled :
  exists wp',
    PF.weight_step 4 (1 # 10) unit zero_likelihood (Some tt)
                   demo_particles (weights_of demo_weights)
                   (fun _ => 1 # 5) (fun j => j)
    = Ok (demo_particles, wp') /\
    In NaN wp' /\
    ~ same_weights wp' (weights_of [1 # 4; 1 # 4; 1 # 4; 1 # 4]).
Proof.
  exists [NaN; NaN; NaN; NaN]. split; [reflexivity|]. split.
  - left. reflexivity.
  - intros H. inversion H as [|a b l l' Hab _]. exact Hab.
Qed.

End Degeneracy.

Section NoObservation.
Local Open Scope Q_scope.

Lemma normalize_finite (qs : list Q) :
  ~ Qsum qs == 0 ->
  PF.normalize (weights_of qs) = weights_of (map (fun q => q / Qsum qs) qs).
Proof.
  intros Hs. unfold PF.normalize. rewrite np_sum_finite.
  unfold weights_of. rewrite !map_map. apply map_ext. intros q.
  unfold np_div. rewrite (Qeq_bool_false _ _ Hs). reflexivity.
Qed.

Lemma same_weights_of (l l' : list Q) :
  Forall2 Qeq l l' -> same_weights (weights_of l) (weights_of l').
Proof.
  induction 1 as [|a b l l' Hab _ IH]; constructor; [exact Hab|exact IH].
Qed.

(** C9, as stated, fails: the weights that [reallocation_resampling]
    returns for the normalized [crowd_weights] sum to 1.03, and the next
    step, without an observation, divides each of them by that sum. *)
Lemma no_observation_changes_weights :
  exists wp wp',
    normalized crowd_weights /\
    PF.resample_stage 20 (1 # 10) crowd (weights_of crowd_weights)
                      (fun _ => 1 # 2) (fun j => j) = Ok (crowd, wp) /\
    same_weights wp
      (weights_of (repeat (22 # 425) 17 ++ repeat (1 # 20) 3)) /\
    PF.weight_step 20 (1 # 10) unit unit_likelihood None crowd wp
                   (fun _ => 1 # 2) (fun j => j) = Ok (crowd, wp') /\
    same_weights wp'
      (weights_of (repeat (88 # 1751) 17 ++ repeat (5 # 103) 3)) /\
    ~ same_weights wp' wp.
Proof.
  eexists. eexists.
  split; [split; [repeat constructor; discriminate|reflexivity]|].
  split; [vm_compute; reflexivity|].
  split; [repeat constructor|].
  split; [vm_compute; reflexivity|].
  split; [repeat constructor|].
  intros H. inversion H as [|a b l l' Hab _]. discriminate Hab.
Qed.

End NoObservation.

Section LowVariance.
Local Open Scope Q_scope.

Lemma advance_ok (target : npfloat) (rest : list npfloat) (ind : nat) :
  rest <> [] -> np_gtb target (last rest NaN) = false ->
  exists rest' ind',
    PF.advance target rest ind = Ok (rest', ind') /\
    rest' <> [] /\ last rest' NaN = last rest NaN /\
    (ind' + length rest' = ind + length rest)%nat.
Proof.
  revert ind. induction rest as [|c rest IH]; intros ind Hne Hlast;
    [contradiction|].
  cbn [PF.advance]. destruct (np_gtb target c) eqn:Hc.
  - destruct rest as [|c' rest'].
    + cbn [last] in Hlast. congruence.
    + destruct (IH (S ind)) as [r [i [E [Hr [Hl Hlen]]]]];
        [discriminate | exact Hlast |].
      exists r, i. split; [exact E|]. split; [exact Hr|].
      split; [exact Hl|]. cbn [length] in *. lia.
  - exists (c :: rest), ind. repeat split. discriminate.
Qed.

Lemma select_ok (ids rest : list npfloat) (ind : nat) :
  rest <> [] ->
  Forall (fun t => np_gtb t (last rest NaN) = false) ids ->
  exists indexes,
    PF.select ids rest ind = Ok indexes /\
    length indexes = length ids /\
    Forall (fun i => (i < ind + length rest)%nat) indexes.
Proof.
  revert rest ind. induction ids as [|t ids IH]; intros rest ind Hne Hall.
  - exists []. repeat split. constructor.
  - inversion Hall as [|t' ids' Ht Hids]; subst.
    destruct (advance_ok t rest ind Hne Ht) as [r [i [E [Hr [Hl Hlen]]]]].
    cbn [PF.select]. rewrite E. cbn [bind fst snd].
    destruct (IH r i Hr) as [idx [Es [Hn Hb]]].
    { rewrite Hl. exact Hids. }
    rewrite Es. cbn [bind]. exists (i :: idx). split; [reflexivity|].
    split; [cbn [length]; lia|]. constructor.
    + destruct r; [contradiction|]. cbn [length] in Hlen. lia.
    + rewrite <- Hlen. exact Hb.
Qed.

Lemma take_columns_ok (particle : Type) (px : list particle)
      (indexes : list nat) :
  Forall (fun i => (i < length px)%nat) indexes ->
  exists px',
    PF.take_columns particle px indexes = Ok px' /\
    length px' = length indexes.
Proof.
  induction 1 as [|i idx Hi _ [ps [E Hl]]].
  - exists []. split; reflexivity.
  - cbn [PF.take_columns]. unfold PF.column.
    destruct (nth_error px i) as [p|] eqn:Hp.
    + cbn [bind]. rewrite E. cbn [bind]. exists (p :: ps).
      split; [reflexivity|]. cbn [length]. lia.
    + apply nth_error_None in Hp. lia.
Qed.

Lemma cumsum_from_length (acc : npfloat) (l : list npfloat) :
  length (PF.cumsum_from acc l) = length l.
Proof.
  revert acc. induction l as [|x l IH]; intros acc; [reflexivity|].
  cbn [PF.cumsum_from length]. rewrite IH. reflexivity.
Qed.

Lemma cumsum_from_last (a : Q) (qs : list Q) :
  qs <> [] ->
  exists c, last (PF.cumsum_from (Finite a) (weights_of qs)) NaN = Finite c /\
            c == a + Qsum qs.
Proof.
  revert a. induction qs as [|q qs IH]; intros a Hne; [contradiction|].
  destruct qs as [|q' qs'].
  - exists (a + q). split; [reflexivity|]. cbn [Qsum fold_right]. lra.
  - destruct (IH (a + q)) as [c [Hc Hs]]; [discriminate|].
    exists c. split.
    + rewrite <- Hc. reflexivity.
    + rewrite Hs. cbn [Qsum fold_right]. lra.
Qed.

Lemma N_float_pos (nParticles : nat) :
  (0 < nParticles)%nat -> 0 < PF.N_float nParticles.
Proof.
  intros H. unfold PF.N_float. change 0 with (inject_Z 0).
  rewrite <- Zlt_Qlt. lia.
Qed.

Lemma one_over_N_Ok (nParticles : nat) :
  (0 < nParticles)%nat ->
  PF.one_over_N nParticles = Ok (1 / PF.N_float nParticles).
Proof.
  intros H. unfold PF.one_over_N. destruct nParticles; [lia|reflexivity].
Qed.

Lemma targets_below_one (nParticles : nat) (raw c : Q) :
  (0 < nParticles)%nat -> 0 <= raw < 1 -> c == 1 ->
  Forall (fun t => np_gtb t (Finite c) = false)
         (map (fun b => Finite (b + uniform 0 (1 / PF.N_float nParticles) raw))
              (PF.arange_unit nParticles (1 / PF.N_float nParticles))).
Proof.
  intros HN [Hr0 Hr1] Hc. pose proof (N_float_pos nParticles HN) as Hpos.
  apply Forall_forall. intros t Ht.
  apply in_map_iff in Ht. destruct Ht as [b [<- Hb]].
  unfold PF.arange_unit in Hb. apply in_map_iff in Hb.
  destruct Hb as [i [<- Hi]]. apply in_seq in Hi.
  unfold np_gtb. cbn [np_ltb]. apply Qltb_false. unfold uniform.
  set (n := PF.N_float nParticles) in *.
  assert (inject_Z (Z.of_nat i) <= n - 1) as Hi'.
  { unfold n, PF.N_float. change 1 with (inject_Z 1).
    unfold Qminus. rewrite <- inject_Z_opp, <- inject_Z_plus, <- Zle_Qle. lia. }
  assert (0 <= inject_Z (Z.of_nat i)) as Hi0.
  { change 0 with (inject_Z 0). rewrite <- Zle_Qle. lia. }
  assert (0 < 1 / n) as Hk by (apply Qlt_shift_div_l; lra).
  assert (n * (1 / n) == 1) as Hnk by (field; lra).
  set (k := 1 / n) in *. rewrite Hc. nra.
Qed.

Lemma Qsum_repeat (q : Q) (n : nat) :
  Qsum (repeat q n) == inject_Z (Z.of_nat n) * q.
Proof.
  induction n as [|n IH].
  - cbn [repeat Qsum fold_right]. change (inject_Z (Z.of_nat 0)) with 0. lra.
  - cbn [repeat Qsum fold_right]. fold (Qsum (repeat q n)). rewrite IH.
    rewrite Nat2Z.inj_succ. unfold Z.succ. rewrite inject_Z_plus.
    change (inject_Z 1) with 1. lra.
Qed.

Lemma uniform_weights (n : nat) :
  (0 < n)%nat ->
  let ones := repeat (Finite 1) n in
  map (fun o => np_div o (np_sum ones)) ones
  = weights_of (repeat (1 / Qsum (repeat 1 n)) n) /\
  Qsum (repeat (1 / Qsum (repeat 1 n)) n) == 1.
Proof.
  intros Hn ones.
  assert (0 < inject_Z (Z.of_nat n)) as Hpos.
  { change 0 with (inject_Z 0). rewrite <- Zlt_Qlt. lia. }
  pose proof (Qsum_repeat 1 n) as Hs.
  assert (~ Qsum (repeat 1 n) == 0) as Hnz by lra.
  split.
  - unfold ones.
    replace (repeat (Finite 1) n) with (weights_of (repeat 1 n))
      by (unfold weights_of; apply map_repeat).
    rewrite np_sum_finite. unfold weights_of. rewrite !map_repeat.
    unfold np_div. rewrite (Qeq_bool_false _ _ Hnz). reflexivity.
  - rewrite Qsum_repeat, Hs. field. lra.
Qed.

(** Over the rationals the walk of [re_sampling] never runs off the
    cumulative weights of a normalized weight vector: their last entry is
    one and every target is below one. *)
Lemma re_sampling_returns_over_rationals (nParticles : nat) (particle : Type)
      (px : list particle) (qs : list Q) (raw : Q) :
  (0 < nParticles)%nat ->
  length px = nParticles -> length qs = nParticles ->
  normalized qs -> 0 <= raw < 1 ->
  exists px' qs',
    PF.re_sampling nParticles particle px (weights_of qs) raw
    = Ok (px', weights_of qs') /\
    length px' = nParticles /\ length qs' = nParticles /\ Qsum qs' == 1.
Proof.
  intros HN Hpx Hqs [Hpos Hsum] Hraw.
  assert (qs <> []) as Hne by (destruct qs; [cbn in Hqs; lia|discriminate]).
  destruct (cumsum_from_last 0 qs Hne) as [c [Hlast Hc]].
  unfold PF.re_sampling. rewrite (one_over_N_Ok nParticles HN). cbn [bind].
  set (ids := map _ (PF.arange_unit nParticles _)).
  destruct (select_ok ids (PF.cumsum (weights_of qs)) 0) as [idx [Es [Hn Hb]]].
  { unfold PF.cumsum. intros E.
    apply (f_equal (@length npfloat)) in E.
    rewrite cumsum_from_length in E. unfold weights_of in E.
    rewrite length_map in E. cbn in E. lia. }
  { unfold PF.cumsum. rewrite Hlast.
    apply targets_below_one; [exact HN|exact Hraw|lra]. }
  rewrite Es. cbn [bind].
  destruct (take_columns_ok particle px idx) as [px' [Et Hl]].
  { eapply Forall_impl; [|exact Hb]. cbn beta. intros i Hi.
    unfold PF.cumsum in Hi. rewrite cumsum_from_length in Hi.
    unfold weights_of in Hi. rewrite length_map in Hi. lia. }
  rewrite Et. cbn [bind].
  assert (length (weights_of qs) = nParticles) as Hw
      by (unfold weights_of; rewrite length_map; exact Hqs).
  rewrite Hw. destruct (uniform_weights nParticles HN) as [Eu Su].
  cbv zeta in Eu. rewrite Eu.
  exists px', (repeat (1 / Qsum (repeat 1 nParticles)) nParticles).
  split; [reflexivity|]. split.
  - rewrite Hl, Hn. unfold ids. rewrite length_map. unfold PF.arange_unit.
    rewrite length_map, length_seq. reflexivity.
  - split; [apply repeat_length|exact Su].
Qed.

End LowVariance.

Section Reallocation.
Local Open Scope Q_scope.

Lemma column_Ok (particle : Type) (particles : list particle) (m : nat) :
  (m < length particles)%nat ->
  exists p, PF.column particle particles m = Ok p.
Proof.
  intros H. unfold PF.column.
  destruct (nth_error particles m) as [p|] eqn:E; [eauto|].
  apply nth_error_None in E. lia.
Qed.

Lemma reallocate_ok (nParticles : nat) (particle : Type)
      (particles : list particle) (raw_u : nat -> Q) (qs : list Q) (m : nat) :
  (0 < nParticles)%nat ->
  (m + length qs <= length particles)%nat ->
  exists ps ws,
    PF.reallocate nParticles particle particles raw_u (weights_of qs) m
    = Ok (ps, ws) /\
    length ps = length ws.
Proof.
  intros HN. revert m. induction qs as [|q qs IH]; intros m Hm.
  - exists [], []. split; reflexivity.
  - cbn [weights_of map PF.reallocate]. fold (weights_of qs).
    rewrite (one_over_N_Ok nParticles HN). cbn [bind].
    cbn [length] in Hm.
    destruct (column_Ok particle particles m) as [p Hp]; [lia|].
    destruct (IH (S m)) as [ps [ws [E Hl]]]; [lia|]. rewrite E.
    destruct (np_geb (Finite q) (Finite (1 / PF.N_float nParticles))).
    + cbn [np_mul np_floor_int bind].
      destruct (Z.to_nat (Qfloor (PF.N_float nParticles * q))) as [|k].
      * cbn [bind fst snd app]. exists ps, ws. split; [reflexivity|exact Hl].
      * rewrite Hp. cbn [bind fst snd]. eexists. eexists.
        split; [reflexivity|]. rewrite !length_app, !repeat_length. lia.
    + destruct (np_geb (Finite q) _).
      * rewrite Hp. cbn [bind fst snd]. eexists. eexists.
        split; [reflexivity|]. cbn [app length]. lia.
      * cbn [bind fst snd app]. exists ps, ws. split; [reflexivity|exact Hl].
Qed.

Lemma pad_ok (nParticles : nat) (particle : Type)
      (particles : list particle) (M : nat) (raw_c : nat -> nat)
      (missing j : nat) :
  (0 < nParticles)%nat -> (0 < M)%nat -> (M <= length particles)%nat ->
  exists ps ws,
    PF.pad nParticles particle particles M raw_c missing j = Ok (ps, ws) /\
    length ps = missing /\ length ws = missing.
Proof.
  intros HN HM Hlen. revert j. induction missing as [|k IH]; intros j.
  - exists [], []. repeat split.
  - cbn [PF.pad]. unfold choice. destruct M as [|M']; [lia|].
    cbn [bind].
    destruct (column_Ok particle particles (raw_c j mod S M')) as [p Hp].
    { pose proof (Nat.mod_upper_bound (raw_c j) (S M')). lia. }
    rewrite Hp. cbn [bind]. rewrite (one_over_N_Ok nParticles HN).
    cbn [bind]. destruct (IH (S j)) as [ps [ws [E [H1 H2]]]].
    rewrite E. cbn [bind fst snd]. eexists. eexists.
    split; [reflexivity|]. cbn [length]. lia.
Qed.

Lemma reallocation_returns (nParticles : nat) (particle : Type)
      (particles : list particle) (qs : list Q)
      (raw_u : nat -> Q) (raw_c : nat -> nat) :
  (0 < nParticles)%nat ->
  length particles = nParticles -> length qs = nParticles ->
  exists ps ws,
    PF.reallocation_resampling nParticles particle particles (weights_of qs)
                               raw_u raw_c = Ok (ps, ws) /\
    length ps = length ws /\ (nParticles <= length ps)%nat.
Proof.
  intros HN Hp Hq. unfold PF.reallocation_resampling.
  destruct (reallocate_ok nParticles particle particles raw_u qs 0 HN)
    as [ps [ws [E Hl]]]; [lia|].
  rewrite E. cbn [bind fst snd].
  assert (length (weights_of qs) = nParticles) as Hw
      by (unfold weights_of; rewrite length_map; exact Hq).
  rewrite Hw.
  destruct (pad_ok nParticles particle particles nParticles raw_c
                   (nParticles - length ps) 0 HN HN)
    as [ps' [ws' [E' [H1 H2]]]]; [lia|].
  rewrite E'. cbn [bind fst snd]. eexists. eexists.
  split; [reflexivity|]. rewrite !length_app. lia.
Qed.

(** C1, as stated, fails for [reallocation_resampling]: on four
    particles of weights [0.7, 0.1, 0.1, 0.1] with [nParticles = 4], when
    each light particle passes its draw, five particles come back, with
    weights summing to 1.45. *)
Lemma reallocation_returns_five :
  exists ps ws,
    length demo_particles = 4%nat /\ normalized demo_weights /\
    PF.reallocation_resampling 4 vec3 demo_particles (weights_of demo_weights)
                               (fun _ => 1 # 5) (fun j => j) = Ok (ps, ws) /\
    length ps = 5%nat /\ length ws = 5%nat /\
    same_weights ws (weights_of [7 # 20; 7 # 20; 1 # 4; 1 # 4; 1 # 4]) /\
    np_same (np_sum ws) (Finite (29 # 20)) /\
    ~ np_same (np_sum ws) (Finite 1).
Proof.
  eexists. eexists. split; [reflexivity|].
  split; [exact demo_weights_normalized|].
  split; [vm_compute; reflexivity|].
  split; [reflexivity|]. split; [reflexivity|].
  split; [repeat constructor|]. split; [reflexivity|].
  intros H. discriminate H.
Qed.

End Reallocation.

(* ================================================================= *)
(** * Part III: further properties of the code *)
(* ================================================================= *)

Section Geometry.
Local Open Scope R_scope.

Lemma tcomp_rest (tab : vec3) (dt : R) :
  - PI <= v2 tab <= PI -> tcomp tab (mk3 0 0 0) dt = tab.
Proof.
  intros H. destruct tab as [x y th]. cbn [v2] in H.
  unfold tcomp. cbn [v0 v1 v2]. f_equal; try ring.
  rewrite angle_wrap_id; [ring|]. lra.
Qed.

(** X1: composing a pose whose heading is in [[-pi, pi]] with the zero
    twist gives the pose back, whatever the time step. *)
Theorem tcomp_zero_twist (tab : vec3) (dt : R) :
  - PI <= v2 tab <= PI -> tcomp tab (mk3 0 0 0) dt = tab.
Proof. exact (tcomp_rest tab dt). Qed.

(** The initial pose of the EKF run. *)
Lemma tcomp_zero_twist_witness :
  tcomp (mk3 1 (-40) (- (PI / 2))) (mk3 0 0 0) 1 = mk3 1 (-40) (- (PI / 2)).
Proof.
  apply (tcomp_zero_twist (mk3 1 (-40) (- (PI / 2))) 1).
  cbn [v2]. pose proof PI_RGT_0. lra.
Defined.


Lemma control_rate_bound (nSteps k : Z) (u : vec3) :
  Sim.get_robot_control nSteps k = Ok u ->
  v0 u = 0 /\ v1 u = 25 / 1000 /\ - (PI / 1800) <= v2 u <= PI / 1800.
Proof.
  unfold Sim.get_robot_control. destruct (nSteps =? 0)%Z; [discriminate|].
  intros E. injection E as <-. cbn [v0 v1 v2].
  split; [reflexivity|]. split; [reflexivity|].
  pose proof PI_RGT_0 as Hpi.
  pose proof (SIN_bound (3 * PI * IZR k / IZR nSteps)) as [Hl Hu].
  split; nra.
Qed.

(** X3: with [nSteps] not zero, a true heading in [[-pi, pi]] and a time
    step of at most 3600 s in magnitude, [simulate_world] returns the
    pose [tcomp] gives (its own second wrap changes nothing), the control
    is [(0, 0.025, w)] with [|w| <= pi / 1800], and the new heading is in
    [[-pi, pi]] again. *)
Theorem simulate_world_heading (xTrue : vec3) (dt_pred : R) (nSteps k : Z) :
  nSteps <> 0%Z -> - PI <= v2 xTrue <= PI -> - 3600 <= dt_pred <= 3600 ->
  exists xTrue' u,
    Sim.get_robot_control nSteps k = Ok u /\
    (v0 u = 0 /\ v1 u = 25 / 1000 /\ - (PI / 1800) <= v2 u <= PI / 1800) /\
    Sim.simulate_world xTrue dt_pred nSteps k = Ok xTrue' /\
    xTrue' = tcomp xTrue u dt_pred /\
    - PI <= v2 xTrue' <= PI.
Proof.
  intros Hn Hth Hdt. unfold Sim.simulate_world.
  destruct (Sim.get_robot_control nSteps k) as [u|e] eqn:Hu.
  2:{ unfold Sim.get_robot_control in Hu.
      destruct (Z.eqb_spec nSteps 0); [contradiction|discriminate]. }
  cbn [bind]. pose proof (control_rate_bound _ _ _ Hu) as Hctl.
  destruct Hctl as [Hc0 [Hc1 Hw]].
  pose proof PI_RGT_0 as Hpi.
  assert (- (2 * PI) <= dt_pred * v2 u <= 2 * PI) as Hinc.
  { destruct Hdt as [Hd1 Hd2]. destruct Hw as [Hw1 Hw2]. split; nra. }
  assert (- PI <= v2 (tcomp xTrue u dt_pred) <= PI) as Hr.
  { unfold tcomp. cbn [v2]. apply angle_wrap_closed_range. lra. }
  eexists. exists u. split; [reflexivity|].
  split; [split; [exact Hc0|split; [exact Hc1|exact Hw]]|].
  split; [reflexivity|].
  rewrite (angle_wrap_id _ Hr). split; [|exact Hr].
  destruct (tcomp xTrue u dt_pred); reflexivity.
Qed.

(** The first step of the EKF run: [nSteps = 6000], [dt_pred = 1]. *)
Lemma simulate_world_heading_witness :
  exists xTrue' u,
    Sim.get_robot_control 6000 1 = Ok u /\
    (v0 u = 0 /\ v1 u = 25 / 1000 /\ - (PI / 1800) <= v2 u <= PI / 1800) /\
    Sim.simulate_world (mk3 1 (-40) (- (PI / 2))) 1 6000 1 = Ok xTrue' /\
    xTrue' = tcomp (mk3 1 (-40) (- (PI / 2))) u 1 /\
    - PI <= v2 xTrue' <= PI.
Proof.
  apply (simulate_world_heading (mk3 1 (-40) (- (PI / 2))) 1 6000 1).
  - discriminate.
  - cbn [v2]. pose proof PI_RGT_0. lra.
  - lra.
Defined.

(** X4: when the noise draw is zero and no entry of [QTrue] is
    negative (so that [np.sqrt(QTrue)] is an array of reals),
    [get_odometry] returns the pose [tcomp] gives from the control and
    the control itself, as long as the heading reached is within [3 pi]
    of zero: the second composition, with the zero noise, changes
    nothing. *)
Theorem get_odometry_without_noise (xOdom : vec3) (QTrue : mat) (dt_pred : R)
        (nSteps k : Z) (u : vec3) :
  (forall i j, (i < 3)%nat -> (j < 3)%nat -> 0 <= QTrue i j) ->
  Sim.get_robot_control nSteps k = Ok u ->
  - 3 * PI <= v2 xOdom + dt_pred * v2 u <= 3 * PI ->
  Sim.get_odometry xOdom QTrue dt_pred nSteps k (mk3 0 0 0)
  = Ok (tcomp xOdom u dt_pred, u).
Proof.
  intros _ Hu Hr. unfold Sim.get_odometry. rewrite Hu. cbn [bind v0 v1 v2].
  assert (- PI <= v2 (tcomp xOdom u dt_pred) <= PI) as Hh.
  { unfold tcomp. cbn [v2]. apply angle_wrap_closed_range. exact Hr. }
  f_equal. f_equal.
  - replace (mk3 _ _ _) with (mk3 0 0 0) by (f_equal; ring).
    apply tcomp_rest. exact Hh.
  - destruct u as [a b c]. cbn [v0 v1 v2]. f_equal; ring.
Qed.

Lemma get_odometry_without_noise_witness :
  Sim.get_odometry (mk3 1 (-40) 0) eye 1 6000 1 (mk3 0 0 0)
  = Ok (tcomp (mk3 1 (-40) 0)
              (mk3 0 (25 / 1000)
                   (1 / 10 * PI / 180 * sin (3 * PI * 1 / 6000))) 1,
        mk3 0 (25 / 1000) (1 / 10 * PI / 180 * sin (3 * PI * 1 / 6000))).
Proof.
  apply (get_odometry_without_noise (mk3 1 (-40) 0) eye 1 6000 1).
  - intros i j _ _. unfold eye. destruct (i =? j)%nat; lra.
  - reflexivity.
  - cbn [v2]. pose proof PI_RGT_0 as Hpi.
    pose proof (SIN_bound (3 * PI * 1 / 6000)) as [Hl Hu]. split; nra.
Defined.

End Geometry.

Section ObservationModels.
Local Open Scope R_scope.

Lemma atan_pos (x : R) : 0 < x -> 0 < atan x.
Proof. intros H. rewrite <- atan_0. apply atan_increasing. exact H. Qed.

Lemma atan_nonpos (x : R) : x <= 0 -> atan x <= 0.
Proof.
  intros [H|H].
  - left. rewrite <- atan_0. apply atan_increasing. exact H.
  - rewrite H, atan_0. lra.
Qed.

Lemma atan2_range (y x : R) : - PI < atan2 y x <= PI.
Proof.
  pose proof PI_RGT_0 as Hpi. unfold atan2.
  destruct (Rlt_dec 0 x) as [Hx|Hx].
  - pose proof (atan_bound (y / x)). lra.
  - destruct (Rlt_dec x 0) as [Hx'|Hx'].
    + pose proof (atan_bound (y / x)) as Hb.
      pose proof (Rinv_lt_0_compat x Hx') as Hi.
      destruct (Rle_dec 0 y) as [Hy|Hy].
      * assert (atan (y / x) <= 0) by (apply atan_nonpos; unfold Rdiv; nra).
        lra.
      * assert (0 < atan (y / x)) by (apply atan_pos; unfold Rdiv; nra).
        lra.
    + destruct (Rlt_dec 0 y); [lra|]. destruct (Rlt_dec y 0); lra.
Qed.

(** X6: for a landmark of the map and a vehicle heading within [2 pi] of
    zero, both observation models return the same observation, with a
    nonnegative range and a bearing in [[-pi, pi]]. *)
Theorem observation_model_ranges (xVeh : vec3) (iFeature : nat)
        (Map : landmarks) :
  (iFeature < length Map)%nat -> - 2 * PI <= v2 xVeh <= 2 * PI ->
  exists z,
    EKF.observation_model xVeh iFeature Map = Ok z /\
    PF.observation_model xVeh iFeature Map = Ok z /\
    0 <= w0 z /\ - PI <= w1 z <= PI.
Proof.
  intros Hi Hth. unfold EKF.observation_model, PF.observation_model.
  destruct (nth_error Map iFeature) as [[mx my]|] eqn:E.
  2:{ apply nth_error_None in E. lia. }
  eexists. split; [reflexivity|]. split; [reflexivity|]. cbn [w0 w1].
  split; [apply sqrt_pos|].
  apply angle_wrap_closed_range.
  pose proof (atan2_range (my - v1 xVeh) (mx - v0 xVeh)). lra.
Qed.

Lemma observation_model_ranges_witness :
  exists z,
    EKF.observation_model (mk3 0 0 0) 0 [(10, 0)] = Ok z /\
    PF.observation_model (mk3 0 0 0) 0 [(10, 0)] = Ok z /\
    0 <= w0 z /\ - PI <= w1 z <= PI.
Proof.
  apply (observation_model_ranges (mk3 0 0 0) 0 [(10, 0)]).
  - cbn [length]. lia.
  - cbn [v2]. pose proof PI_RGT_0. lra.
Defined.

(** X7: a landmark index outside the map raises [IndexError] in the
    observation models and in the Jacobian, and so does the measurement
    update of the EKF. *)
Theorem observation_model_index_error (xVeh : vec3) (iFeature : nat)
        (Map : landmarks) :
  (length Map <= iFeature)%nat ->
  EKF.observation_model xVeh iFeature Map = Raise IndexError /\
  PF.observation_model xVeh iFeature Map = Raise IndexError /\
  EKF.get_obs_jac xVeh iFeature Map = Raise IndexError /\
  (forall PPred z REst,
      EKF.update xVeh PPred (Some (z, iFeature)) Map REst = Raise IndexError).
Proof.
  intros H. apply nth_error_None in H.
  unfold EKF.update, EKF.observation_model, PF.observation_model,
    EKF.get_obs_jac.
  rewrite H. repeat split.
Qed.

Lemma observation_model_index_error_witness :
  EKF.observation_model (mk3 0 0 0) 1 [(10, 0)] = Raise IndexError /\
  PF.observation_model (mk3 0 0 0) 1 [(10, 0)] = Raise IndexError /\
  EKF.get_obs_jac (mk3 0 0 0) 1 [(10, 0)] = Raise IndexError /\
  (forall PPred z REst,
      EKF.update (mk3 0 0 0) PPred (Some (z, 1%nat)) [(10, 0)] REst
      = Raise IndexError).
Proof.
  apply (observation_model_index_error (mk3 0 0 0) 1 [(10, 0)]).
  cbn [length]. lia.
Defined.

(** X8: for a landmark away from the predicted position, the Jacobian's
    range row is a unit vector in the position columns, orthogonal to
    the bearing row there; its heading column is [(0, -1)]. *)
Theorem get_obs_jac_rows (xPred : vec3) (iFeature : nat) (Map : landmarks)
        (mx my : R) :
  nth_error Map iFeature = Some (mx, my) ->
  mx <> v0 xPred \/ my <> v1 xPred ->
  exists H,
    EKF.get_obs_jac xPred iFeature Map = Ok H /\
    H 0%nat 0%nat * H 0%nat 0%nat + H 0%nat 1%nat * H 0%nat 1%nat = 1 /\
    H 0%nat 0%nat * H 1%nat 0%nat + H 0%nat 1%nat * H 1%nat 1%nat = 0 /\
    H 0%nat 2%nat = 0 /\ H 1%nat 2%nat = -1.
Proof.
  intros Hm Hne. unfold EKF.get_obs_jac. rewrite Hm.
  eexists. split; [reflexivity|]. cbv [of_rows nth].
  set (dx := mx - v0 xPred). set (dy := my - v1 xPred).
  assert (0 < dx * dx + dy * dy) as Hq.
  { assert (dx <> 0 \/ dy <> 0) as [Hd|Hd]
        by (unfold dx, dy; destruct Hne; [left|right]; lra).
    - pose proof (Rle_0_sqr dy). pose proof (Rlt_0_sqr dx Hd).
      unfold Rsqr in *. lra.
    - pose proof (Rle_0_sqr dx). pose proof (Rlt_0_sqr dy Hd).
      unfold Rsqr in *. lra. }
  pose proof (sqrt_lt_R0 _ Hq) as Hs.
  pose proof (sqrt_sqrt _ (Rlt_le _ _ Hq)) as Hss.
  set (q := sqrt (dx * dx + dy * dy)) in *.
  repeat split.
  - replace (- dx / q * (- dx / q) + - dy / q * (- dy / q))
      with ((dx * dx + dy * dy) / (q * q)) by (field; lra).
    rewrite Hss. field. lra.
  - field. split; lra.
Qed.

Lemma get_obs_jac_rows_witness :
  exists H,
    EKF.get_obs_jac (mk3 0 0 0) 0 [(10, 0)] = Ok H /\
    H 0%nat 0%nat * H 0%nat 0%nat + H 0%nat 1%nat * H 0%nat 1%nat = 1 /\
    H 0%nat 0%nat * H 1%nat 0%nat + H 0%nat 1%nat * H 1%nat 1%nat = 0 /\
    H 0%nat 2%nat = 0 /\ H 1%nat 2%nat = -1.
Proof.
  apply (get_obs_jac_rows (mk3 0 0 0) 0 [(10, 0)] 10 0).
  - reflexivity.
  - left. cbn [v0]. lra.
Defined.

(** X5: [G @ G.T] is [dt^2] times the identity: the control-noise
    Jacobian is a rotation scaled by the time step. *)
Theorem G_orthogonal (x u : vec3) (dt : R) (i j : nat) :
  (i < 3)%nat -> (j < 3)%nat ->
  mmul 3 (EKF.G x u dt) (transpose (EKF.G x u dt)) i j = dt * dt * eye i j.
Proof.
  intros Hi Hj. pose proof (sin2_cos2 (v2 x)) as E. unfold Rsqr in E.
  unfold EKF.G. set (s := sin (v2 x)) in *. set (c := cos (v2 x)) in *.
  destruct i as [|[|[|i]]]; [| | |lia];
    (destruct j as [|[|[|j]]]; [| | |lia]);
    cbv [mmul transpose dot of_rows nth eye Nat.eqb]; try ring.
  - replace (dt * dt * 1) with (dt * dt * (s * s + c * c)) by (rewrite E; ring).
    ring.
  - replace (dt * dt * 1) with (dt * dt * (s * s + c * c)) by (rewrite E; ring).
    ring.
Qed.

Lemma G_orthogonal_witness :
  mmul 3 (EKF.G (mk3 0 0 1) (mk3 1 0 0) 2)
       (transpose (EKF.G (mk3 0 0 1) (mk3 1 0 0) 2)) 0%nat 0%nat
  = 2 * 2 * eye 0%nat 0%nat.
Proof.
  apply (G_orthogonal (mk3 0 0 1) (mk3 1 0 0) 2 0%nat 0%nat); lia.
Defined.

End ObservationModels.

Section UpdateExtras.
Local Open Scope R_scope.




Lemma quad_diagonal (A : mat) (i : nat) :
  (i < 3)%nat ->
  quad 3 A (fun k => if Nat.eqb k i then 1 else 0) = A i i.
Proof.
  intros Hi. destruct i as [|[|[|i]]]; [| | |lia];
    cbv [quad dot Nat.eqb]; ring.
Qed.

End UpdateExtras.

Section ObservationEdges.

Lemma py_mod_zero (a : Z) : py_mod a 0 = Raise ZeroDivisionError.
Proof. reflexivity. Qed.

Lemma py_mod_Ok (a b : Z) : b <> 0%Z -> py_mod a b = Ok (a mod b)%Z.
Proof.
  intros H. unfold py_mod. destruct (Z.eqb_spec b 0); [contradiction|reflexivity].
Qed.

Lemma randint_empty (low high raw : Z) :
  (high <= low)%Z -> randint low high raw = Raise ValueError.
Proof.
  intros H. unfold randint. destruct (Z.leb_spec high low); [reflexivity|lia].
Qed.

(** X9: in both simulators [get_observation] raises [ZeroDivisionError]
    when [dt_meas] is zero, returns no observation at a step where none
    is due, and raises [ValueError] at a step where one is due when the
    map has fewer than two landmarks. *)
Theorem get_observation_edges :
  (forall self k raw n,
      (EKF.dt_meas self = 0%Z ->
       EKF.get_observation self k raw n = Raise ZeroDivisionError) /\
      (EKF.dt_meas self <> 0%Z ->
       ((k * EKF.dt_pred self) mod EKF.dt_meas self <> 0)%Z ->
       EKF.get_observation self k raw n = Ok None) /\
      (EKF.dt_meas self <> 0%Z ->
       ((k * EKF.dt_pred self) mod EKF.dt_meas self = 0)%Z ->
       (length (EKF.Map self) < 2)%nat ->
       EKF.get_observation self k raw n = Raise ValueError)) /\
  (forall self k raw n,
      (PF.dt_meas self = 0%Z ->
       PF.get_observation self k raw n = Raise ZeroDivisionError) /\
      (PF.dt_meas self <> 0%Z ->
       ((k * PF.dt_pred self) mod PF.dt_meas self <> 0)%Z ->
       PF.get_observation self k raw n = Ok None) /\
      (PF.dt_meas self <> 0%Z ->
       ((k * PF.dt_pred self) mod PF.dt_meas self = 0)%Z ->
       (length (PF.Map self) < 2)%nat ->
       PF.get_observation self k raw n = Raise ValueError)).
Proof.
  split; intros self k raw n; (split; [|split]).
  - intros E. unfold EKF.get_observation. rewrite E. reflexivity.
  - intros Hd Hk. unfold EKF.get_observation. rewrite (py_mod_Ok _ _ Hd).
    cbn [bind]. destruct (Z.eqb_spec ((k * EKF.dt_pred self) mod EKF.dt_meas self) 0);
      [contradiction|reflexivity].
  - intros Hd Hk HM. unfold EKF.get_observation. rewrite (py_mod_Ok _ _ Hd).
    cbn [bind]. rewrite Hk. cbn [Z.eqb].
    rewrite randint_empty by lia. reflexivity.
  - intros E. unfold PF.get_observation. rewrite E. reflexivity.
  - intros Hd Hk. unfold PF.get_observation. rewrite (py_mod_Ok _ _ Hd).
    cbn [bind]. destruct (Z.eqb_spec ((k * PF.dt_pred self) mod PF.dt_meas self) 0);
      [contradiction|reflexivity].
  - intros Hd Hk HM. unfold PF.get_observation. rewrite (py_mod_Ok _ _ Hd).
    cbn [bind]. rewrite Hk. cbn [Z.eqb].
    rewrite randint_empty by lia. reflexivity.
Qed.

Local Open Scope R_scope.

Lemma get_observation_edges_witness :
  (EKF.get_observation (EKF.mkSim 1 0 (mk3 0 0 0) [(10, 0)] eye) 3 7 (mk2 0 0)
   = Raise ZeroDivisionError /\
   EKF.get_observation (EKF.mkSim 1 2 (mk3 0 0 0) [(10, 0)] eye) 3 7 (mk2 0 0)
   = Ok None /\
   EKF.get_observation (EKF.mkSim 1 1 (mk3 0 0 0) [(10, 0)] eye) 3 7 (mk2 0 0)
   = Raise ValueError) /\
  (PF.get_observation (PF.mkSim 1 0 (mk3 0 0 0) [(10, 0)] eye) 3 7 (mk2 0 0)
   = Raise ZeroDivisionError /\
   PF.get_observation (PF.mkSim 1 2 (mk3 0 0 0) [(10, 0)] eye) 3 7 (mk2 0 0)
   = Ok None /\
   PF.get_observation (PF.mkSim 1 1 (mk3 0 0 0) [(10, 0)] eye) 3 7 (mk2 0 0)
   = Raise ValueError).
Proof.
  split; (split; [|split]).
  - apply (proj1 (proj1 get_observation_edges
             (EKF.mkSim 1 0 (mk3 0 0 0) [(10, 0)] eye) 3%Z 7%Z (mk2 0 0))).
    reflexivity.
  - apply (proj1 (proj2 (proj1 get_observation_edges
             (EKF.mkSim 1 2 (mk3 0 0 0) [(10, 0)] eye) 3%Z 7%Z (mk2 0 0))));
      discriminate.
  - apply (proj2 (proj2 (proj1 get_observation_edges
             (EKF.mkSim 1 1 (mk3 0 0 0) [(10, 0)] eye) 3%Z 7%Z (mk2 0 0))));
      [discriminate | reflexivity | cbn [length EKF.Map]; lia].
  - apply (proj1 (proj2 get_observation_edges
             (PF.mkSim 1 0 (mk3 0 0 0) [(10, 0)] eye) 3%Z 7%Z (mk2 0 0))).
    reflexivity.
  - apply (proj1 (proj2 (proj2 get_observation_edges
             (PF.mkSim 1 2 (mk3 0 0 0) [(10, 0)] eye) 3%Z 7%Z (mk2 0 0))));
      discriminate.
  - apply (proj2 (proj2 (proj2 get_observation_edges
             (PF.mkSim 1 1 (mk3 0 0 0) [(10, 0)] eye) 3%Z 7%Z (mk2 0 0))));
      [discriminate | reflexivity | cbn [length PF.Map]; lia].
Defined.

End ObservationEdges.

Section WeightExtras.
Local Open Scope Q_scope.

Lemma Qsum_map_div (qs : list Q) (s : Q) :
  Qsum (map (fun q => q / s) qs) == Qsum qs / s.
Proof.
  induction qs as [|q qs IH]; cbn [map Qsum fold_right].
  - unfold Qdiv. ring.
  - fold (Qsum qs) (Qsum (map (fun q => q / s) qs)). rewrite IH.
    unfold Qdiv. ring.
Qed.

Lemma Qsum_map_mult (qs : list Q) (c : Q) :
  Qsum (map (fun q => q * c) qs) == Qsum qs * c.
Proof.
  induction qs as [|q qs IH]; cbn [map Qsum fold_right].
  - ring.
  - fold (Qsum qs) (Qsum (map (fun q => q * c) qs)). rewrite IH. ring.
Qed.

(** X14: dividing finite nonnegative weights of positive sum by their
    sum gives as many weights, nonnegative and summing to one. *)
Theorem normalize_normalizes (qs : list Q) :
  Forall (fun q => 0 <= q) qs -> 0 < Qsum qs ->
  exists qs',
    PF.normalize (weights_of qs) = weights_of qs' /\
    length qs' = length qs /\ normalized qs'.
Proof.
  intros Hpos Hs. exists (map (fun q => q / Qsum qs) qs).
  split; [apply normalize_finite; lra|]. split; [apply length_map|]. split.
  - apply Forall_forall. intros x Hx. apply in_map_iff in Hx.
    destruct Hx as [q [<- Hq]]. rewrite Forall_forall in Hpos.
    apply Qle_shift_div_l; [exact Hs|]. pose proof (Hpos q Hq). lra.
  - rewrite Qsum_map_div. field. lra.
Qed.

Lemma normalize_normalizes_witness :
  exists qs',
    PF.normalize (weights_of [7 # 20; 7 # 20; 1 # 4; 1 # 4; 1 # 4])
    = weights_of qs' /\
    length qs' = length [7 # 20; 7 # 20; 1 # 4; 1 # 4; 1 # 4] /\
    normalized qs'.
Proof.
  apply (normalize_normalizes [7 # 20; 7 # 20; 1 # 4; 1 # 4; 1 # 4]).
  - repeat constructor; discriminate.
  - reflexivity.
Defined.

(** X16: the prediction loop and the weighting loop keep the length of
    the array and leave every entry from index [count] on unchanged. *)
Theorem loops_leave_extra_columns :
  (forall xs u dt QEst noise p count xs',
      PF.predict_particles xs u dt QEst noise p count = Ok xs' ->
      length xs' = length xs /\ skipn count xs' = skipn count xs) /\
  (forall observation likelihood (obs : observation) xs wp count wp',
      PF.weight_particles observation likelihood obs xs wp count = Ok wp' ->
      length wp' = length wp /\ skipn count wp' = skipn count wp).
Proof.
  split.
  - intros xs u dt QEst noise p count. revert xs p.
    induction count as [|count IH]; intros xs p xs' E.
    + destruct xs; cbn in E; injection E as <-; split; reflexivity.
    + destruct xs as [|x xs]; cbn [PF.predict_particles] in E;
        [discriminate|].
      destruct (PF.predict_particles xs u dt QEst noise (S p) count)
        as [r|e] eqn:Er; cbn [bind] in E; [|discriminate].
      injection E as <-. destruct (IH xs (S p) r Er) as [Hl Hs].
      cbn [length skipn]. split; [lia|exact Hs].
  - intros observation likelihood obs xs wp count. revert xs wp.
    induction count as [|count IH]; intros xs wp wp' E.
    + destruct xs, wp; cbn in E; injection E as <-; split; reflexivity.
    + destruct xs as [|x xs]; [destruct wp; discriminate|].
      destruct wp as [|w wp]; [discriminate|].
      cbn [PF.weight_particles] in E.
      destruct (PF.weight_particles observation likelihood obs xs wp count)
        as [r|e] eqn:Er; cbn [bind] in E; [|discriminate].
      injection E as <-. destruct (IH xs wp r Er) as [Hl Hs].
      cbn [length skipn]. split; [lia|exact Hs].
Qed.

(** X17: with fewer particles, or fewer weights, than [nParticles], the
    prediction loop and the weighting loop raise [IndexError], and so
    does a whole step. *)
Theorem loops_raise_on_short_arrays :
  (forall xs u dt QEst noise p count,
      (length xs < count)%nat ->
      PF.predict_particles xs u dt QEst noise p count = Raise IndexError) /\
  (forall observation likelihood (obs : observation) xs wp count,
      (length xs < count)%nat \/ (length wp < count)%nat ->
      PF.weight_particles observation likelihood obs xs wp count
      = Raise IndexError) /\
  (forall nParticles theta_eff observation likelihood u dt QEst noise
          (obs : option observation) xs wp raw_u raw_c,
      (length xs < nParticles)%nat ->
      PF.step nParticles theta_eff observation likelihood u dt QEst noise
              obs xs wp raw_u raw_c = Raise IndexError).
Proof.
  assert (forall xs u dt QEst noise p count,
             (length xs < count)%nat ->
             PF.predict_particles xs u dt QEst noise p count
             = Raise IndexError) as Hpred.
  { intros xs u dt QEst noise p count. revert xs p.
    induction count as [|count IH]; intros xs p H; [lia|].
    destruct xs as [|x xs]; [reflexivity|].
    cbn [PF.predict_particles]. cbn [length] in H.
    rewrite IH by lia. reflexivity. }
  split; [exact Hpred|]. split.
  2:{ intros. unfold PF.step. rewrite Hpred by assumption. reflexivity. }
  intros observation likelihood obs xs wp count. revert xs wp.
  induction count as [|count IH]; intros xs wp H; [lia|].
  destruct xs as [|x xs]; [destruct wp; reflexivity|].
  destruct wp as [|w wp]; [reflexivity|].
  cbn [PF.weight_particles]. cbn [length] in H.
  rewrite IH by lia. reflexivity.
Qed.

Lemma loops_raise_on_short_arrays_witness :
  PF.predict_particles [mk3 0 0 0; mk3 1 0 0; mk3 0 1 0] (mk3 0 0 0) 1%R eye
                       (fun _ => mk3 0 0 0) 0 4 = Raise IndexError /\
  PF.weight_particles unit unit_likelihood tt demo_particles
                      (weights_of [1 # 2; 1 # 2]) 4 = Raise IndexError /\
  PF.step 4 (1 # 10) unit unit_likelihood (mk3 0 0 0) 1%R eye
          (fun _ => mk3 0 0 0) (Some tt)
          [mk3 0 0 0; mk3 1 0 0; mk3 0 1 0] (weights_of demo_weights)
          (fun _ => 1 # 5) (fun j => j)
  = Raise IndexError.
Proof.
  split; [|split].
  - apply (proj1 loops_raise_on_short_arrays). cbn [length]. lia.
  - apply (proj1 (proj2 loops_raise_on_short_arrays)). right.
    cbn [length weights_of map]. lia.
  - apply (proj2 (proj2 loops_raise_on_short_arrays)). cbn [length]. lia.
Defined.

Lemma loops_leave_extra_columns_witness :
  (exists xs',
      PF.predict_particles (demo_particles ++ [mk3 5 5 0]) (mk3 0 0 0) 1%R eye
                           (fun _ => mk3 0 0 0) 0 4 = Ok xs' /\
      length xs' = 5%nat /\ skipn 4 xs' = [mk3 5 5 0]) /\
  (exists wp',
      PF.weight_particles unit zero_likelihood tt
                          (demo_particles ++ [mk3 5 5 0])
                          (weights_of (demo_weights ++ [1 # 4])) 4 = Ok wp' /\
      length wp' = 5%nat /\ skipn 4 wp' = [Finite (1 # 4)]).
Proof.
  split.
  - eexists. split; [reflexivity|].
    eapply (proj1 loops_leave_extra_columns
                  (demo_particles ++ [mk3 5 5 0]) (mk3 0 0 0) 1%R eye
                  (fun _ => mk3 0 0 0) 0%nat 4%nat).
    reflexivity.
  - eexists. split; [reflexivity|].
    eapply (proj2 loops_leave_extra_columns unit zero_likelihood tt
                  (demo_particles ++ [mk3 5 5 0])
                  (weights_of (demo_weights ++ [1 # 4])) 4%nat).
    reflexivity.
Defined.

End WeightExtras.

Section ResamplingExtras.
Local Open Scope Q_scope.

Lemma advance_Ok_inv (target : npfloat) (rest : list npfloat) (ind : nat)
      (rest' : list npfloat) (ind' : nat) :
  PF.advance target rest ind = Ok (rest', ind') ->
  (ind <= ind')%nat /\ rest' <> [] /\
  (ind' + length rest' = ind + length rest)%nat.
Proof.
  revert ind. induction rest as [|c rest IH]; intros ind E; [discriminate|].
  cbn [PF.advance] in E. destruct (np_gtb target c).
  - destruct (IH (S ind) E) as [H1 [H2 H3]]. cbn [length]. repeat split; [lia|exact H2|lia].
  - injection E as <- <-. repeat split; [lia|discriminate].
Qed.

Lemma select_Ok_inv (ids rest : list npfloat) (ind : nat) (indexes : list nat) :
  PF.select ids rest ind = Ok indexes ->
  length indexes = length ids /\
  StronglySorted le indexes /\
  Forall (fun i => (ind <= i < ind + length rest)%nat) indexes.
Proof.
  revert rest ind indexes. induction ids as [|t ids IH]; intros rest ind indexes E.
  - injection E as <-. repeat split; constructor.
  - cbn [PF.select] in E.
    destruct (PF.advance t rest ind) as [[r i]|e] eqn:Ea; cbn [bind fst snd] in E;
      [|discriminate].
    destruct (PF.select ids r i) as [idx|e] eqn:Es; cbn [bind] in E;
      [|discriminate].
    injection E as <-.
    destruct (advance_Ok_inv _ _ _ _ _ Ea) as [Hle [Hne Hlen]].
    destruct (IH r i idx Es) as [Hl [Hs Hb]].
    split; [cbn [length]; lia|]. split.
    + constructor; [exact Hs|].
      eapply Forall_impl; [|exact Hb]. cbn beta. intros a Ha. lia.
    + constructor.
      * destruct r; [contradiction|]. cbn [length] in Hlen. lia.
      * eapply Forall_impl; [|exact Hb]. cbn beta. intros a Ha. lia.
Qed.

Lemma take_columns_Ok_inv (particle : Type) (px : list particle)
      (indexes : list nat) (px' : list particle) :
  PF.take_columns particle px indexes = Ok px' ->
  length px' = length indexes /\ Forall (fun p => In p px) px'.
Proof.
  revert px'. induction indexes as [|i idx IH]; intros px' E.
  - injection E as <-. split; [reflexivity|constructor].
  - cbn [PF.take_columns] in E. unfold PF.column in E.
    destruct (nth_error px i) as [p|] eqn:Hp; cbn [bind] in E; [|discriminate].
    destruct (PF.take_columns particle px idx) as [ps|e]; cbn [bind] in E;
      [|discriminate].
    injection E as <-. destruct (IH ps eq_refl) as [Hl Hin].
    split; [cbn [length]; lia|]. constructor; [|exact Hin].
    eapply nth_error_In. exact Hp.
Qed.

Lemma one_over_N_inv (nParticles : nat) (x : Q) :
  PF.one_over_N nParticles = Ok x ->
  (0 < nParticles)%nat /\ x = 1 / PF.N_float nParticles.
Proof.
  unfold PF.one_over_N. destruct nParticles; [discriminate|].
  intros E. injection E as <-. split; [lia|reflexivity].
Qed.

(** X18: when [re_sampling] returns, the particles returned are the
    columns of [px] at [nParticles] indexes that never decrease and are
    all below the number of weights; each one is a particle of [px]. *)
Theorem re_sampling_picks_columns (nParticles : nat) (particle : Type)
        (px : list particle) (pw : list npfloat) (raw : Q)
        (px' : list particle) (pw' : list npfloat) :
  PF.re_sampling nParticles particle px pw raw = Ok (px', pw') ->
  exists indexes,
    PF.take_columns particle px indexes = Ok px' /\
    length indexes = nParticles /\
    StronglySorted le indexes /\
    Forall (fun i => (i < length pw)%nat) indexes /\
    length px' = nParticles /\
    Forall (fun p => In p px) px'.
Proof.
  unfold PF.re_sampling. intros E.
  destruct (PF.one_over_N nParticles) as [step|e]; cbn [bind] in E;
    [|discriminate].
  destruct (PF.select _ (PF.cumsum pw) 0) as [idx|e] eqn:Es; cbn [bind] in E;
    [|discriminate].
  destruct (PF.take_columns particle px idx) as [ps|e] eqn:Et; cbn [bind] in E;
    [|discriminate].
  injection E as <- _.
  destruct (select_Ok_inv _ _ _ _ Es) as [Hl [Hs Hb]].
  destruct (take_columns_Ok_inv _ _ _ _ Et) as [Hl' Hin].
  rewrite length_map in Hl. unfold PF.arange_unit in Hl.
  rewrite length_map, length_seq in Hl.
  exists idx. split; [exact Et|]. split; [exact Hl|]. split; [exact Hs|].
  split.
  - eapply Forall_impl; [|exact Hb]. cbn beta. intros a Ha.
    unfold PF.cumsum in Ha. rewrite cumsum_from_length in Ha. lia.
  - split; [lia|exact Hin].
Qed.

Lemma re_sampling_picks_columns_witness :
  exists px' pw' indexes,
    PF.re_sampling 4 vec3 demo_particles (weights_of demo_weights) (1 # 2)
    = Ok (px', pw') /\
    PF.take_columns vec3 demo_particles indexes = Ok px' /\
    length indexes = 4%nat /\
    StronglySorted le indexes /\
    Forall (fun i => (i < length (weights_of demo_weights))%nat) indexes /\
    length px' = 4%nat /\
    Forall (fun p => In p demo_particles) px'.
Proof.
  eexists. eexists.
  assert (PF.re_sampling 4 vec3 demo_particles (weights_of demo_weights) (1 # 2)
          = Ok ([mk3 0 0 0; mk3 0 0 0; mk3 0 0 0; mk3 0 1 0],
                PF.normalize (repeat (Finite 1) 4))) as E by reflexivity.
  destruct (re_sampling_picks_columns 4 vec3 demo_particles
              (weights_of demo_weights) (1 # 2) _ _ E) as [indexes H].
  exists indexes. split; [exact E|exact H].
Defined.

Lemma reallocate_members (nParticles : nat) (particle : Type)
      (particles : list particle) (raw_u : nat -> Q)
      (weights : list npfloat) (m : nat) (ps : list particle)
      (ws : list npfloat) :
  PF.reallocate nParticles particle particles raw_u weights m = Ok (ps, ws) ->
  Forall (fun p => In p particles) ps /\ length ps = length ws.
Proof.
  revert m ps ws. induction weights as [|w rest IH]; intros m ps ws E.
  - injection E as <- <-. split; [constructor|reflexivity].
  - cbn [PF.reallocate] in E.
    destruct (PF.one_over_N nParticles) as [inv_N|e]; cbn [bind] in E;
      [|discriminate].
    match type of E with
    | bind ?here _ = _ => destruct here as [[hp hw]|e] eqn:Eh
    end; cbn [bind] in E; [|discriminate].
    destruct (PF.reallocate nParticles particle particles raw_u rest (S m))
      as [[tp tw]|e] eqn:Et; cbn [bind fst snd] in E; [|discriminate].
    injection E as <- <-. destruct (IH (S m) tp tw Et) as [Hin Hlen].
    assert (Forall (fun p => In p particles) hp /\ length hp = length hw)
      as [Hin' Hlen'].
    { destruct (np_geb w (Finite inv_N)).
      - destruct (np_floor_int _) as [N_m_t|e]; cbn [bind] in Eh;
          [|discriminate].
        destruct (Z.to_nat N_m_t) as [|k].
        + injection Eh as <- <-. split; [constructor|reflexivity].
        + unfold PF.column in Eh.
          destruct (nth_error particles m) as [p|] eqn:Hp; cbn [bind] in Eh;
            [|discriminate].
          injection Eh as <- <-. split.
          * apply Forall_forall. intros x Hx. apply (repeat_spec (S k)) in Hx.
            subst x. eapply nth_error_In. exact Hp.
          * cbn [length]. rewrite !repeat_length. reflexivity.
      - destruct (np_geb w _).
        + unfold PF.column in Eh.
          destruct (nth_error particles m) as [p|] eqn:Hp; cbn [bind] in Eh;
            [|discriminate].
          injection Eh as <- <-. split; [|reflexivity].
          constructor; [|constructor]. eapply nth_error_In. exact Hp.
        + injection Eh as <- <-. split; [constructor|reflexivity]. }
    split; [apply Forall_app; split; assumption|].
    rewrite !length_app. lia.
Qed.

Lemma pad_members (nParticles : nat) (particle : Type)
      (particles : list particle) (M : nat) (raw_c : nat -> nat)
      (missing j : nat) (ps : list particle) (ws : list npfloat) :
  PF.pad nParticles particle particles M raw_c missing j = Ok (ps, ws) ->
  Forall (fun p => In p particles) ps /\
  length ps = missing /\ length ws = missing /\
  Forall (fun w => w = Finite (1 / PF.N_float nParticles)) ws.
Proof.
  revert j ps ws. induction missing as [|k IH]; intros j ps ws E.
  - injection E as <- <-. repeat split; constructor.
  - cbn [PF.pad] in E.
    destruct (choice M (raw_c j)) as [idx|e]; cbn [bind] in E; [|discriminate].
    unfold PF.column in E.
    destruct (nth_error particles idx) as [p|] eqn:Hp; cbn [bind] in E;
      [|discriminate].
    destruct (PF.one_over_N nParticles) as [inv_N|e] eqn:Ei; cbn [bind] in E;
      [|discriminate].
    destruct (PF.pad nParticles particle particles M raw_c k (S j))
      as [[tp tw]|e] eqn:Et; cbn [bind fst snd] in E; [|discriminate].
    injection E as <- <-. destruct (IH (S j) tp tw Et) as [H1 [H2 [H3 H4]]].
    apply one_over_N_inv in Ei. destruct Ei as [_ ->].
    repeat split; cbn [length]; try lia.
    + constructor; [eapply nth_error_In; exact Hp|exact H1].
    + constructor; [reflexivity|exact H4].
Qed.

(** X21: when [reallocation_resampling] returns, every particle returned
    is a particle of the input, there are as many weights as particles,
    and at least [nParticles] of them, whatever the weights are. *)
Theorem reallocation_copies_particles (nParticles : nat) (particle : Type)
        (particles : list particle) (weights : list npfloat)
        (raw_u : nat -> Q) (raw_c : nat -> nat)
        (ps : list particle) (ws : list npfloat) :
  PF.reallocation_resampling nParticles particle particles weights
                             raw_u raw_c = Ok (ps, ws) ->
  Forall (fun p => In p particles) ps /\
  length ps = length ws /\ (nParticles <= length ps)%nat.
Proof.
  unfold PF.reallocation_resampling. intros E.
  destruct (PF.reallocate nParticles particle particles raw_u weights 0)
    as [[kp kw]|e] eqn:Ek; cbn [bind fst snd] in E; [|discriminate].
  destruct (PF.pad _ _ _ _ _ _ _) as [[fp fw]|e] eqn:Ef;
    cbn [bind fst snd] in E; [|discriminate].
  injection E as <- <-.
  destruct (reallocate_members _ _ _ _ _ _ _ _ Ek) as [H1 H2].
  destruct (pad_members _ _ _ _ _ _ _ _ _ Ef) as [H3 [H4 [H5 _]]].
  split; [apply Forall_app; split; assumption|].
  rewrite !length_app. lia.
Qed.

Lemma reallocation_copies_particles_witness :
  exists ps ws,
    PF.reallocation_resampling 4 vec3 demo_particles (weights_of demo_weights)
                               (fun _ => 1 # 5) (fun j => j) = Ok (ps, ws) /\
    Forall (fun p => In p demo_particles) ps /\
    length ps = length ws /\ (4 <= length ps)%nat.
Proof.
  destruct (PF.reallocation_resampling 4 vec3 demo_particles
              (weights_of demo_weights) (fun _ => 1 # 5) (fun j => j))
    as [[ps ws]|e] eqn:E.
  - exists ps, ws. split; [reflexivity|].
    exact (reallocation_copies_particles _ _ _ _ _ _ _ _ E).
  - vm_compute in E. discriminate E.
Defined.

End ResamplingExtras.

Section ResamplingBounds.
Local Open Scope Q_scope.

Lemma inject_nat_nonneg (n : nat) : 0 <= inject_Z (Z.of_nat n).
Proof. change 0 with (inject_Z 0). rewrite <- Zle_Qle. lia. Qed.

Lemma inject_nat_succ (n : nat) :
  inject_Z (Z.of_nat (S n)) == inject_Z (Z.of_nat n) + 1.
Proof.
  rewrite Nat2Z.inj_succ. unfold Z.succ. rewrite inject_Z_plus. reflexivity.
Qed.

Lemma inject_nat_plus (a b : nat) :
  inject_Z (Z.of_nat (a + b)) == inject_Z (Z.of_nat a) + inject_Z (Z.of_nat b).
Proof. rewrite Nat2Z.inj_add, inject_Z_plus. reflexivity. Qed.

Lemma reallocate_size (nParticles : nat) (particle : Type)
      (particles : list particle) (raw_u : nat -> Q) (qs : list Q) (m : nat)
      (ps : list particle) (ws : list npfloat) :
  Forall (fun q => 0 <= q) qs ->
  PF.reallocate nParticles particle particles raw_u (weights_of qs) m
  = Ok (ps, ws) ->
  inject_Z (Z.of_nat (length ps))
  <= PF.N_float nParticles * Qsum qs + inject_Z (Z.of_nat (length qs)).
Proof.
  intros Hpos. revert m ps ws.
  induction Hpos as [|q qs Hq _ IH]; intros m ps ws E.
  - injection E as <- <-. cbn. lra.
  - cbn [weights_of map PF.reallocate] in E. fold (weights_of qs) in E.
    destruct (PF.one_over_N nParticles) as [inv_N|e]; cbn [bind] in E;
      [|discriminate].
    match type of E with
    | bind ?here _ = _ => destruct here as [[hp hw]|e] eqn:Eh
    end; cbn [bind] in E; [|discriminate].
    destruct (PF.reallocate nParticles particle particles raw_u
                            (weights_of qs) (S m))
      as [[tp tw]|e] eqn:Et; cbn [bind fst snd] in E; [|discriminate].
    injection E as <- _. pose proof (IH (S m) tp tw Et) as Ht.
    pose proof (inject_nat_nonneg nParticles) as HN.
    fold (PF.N_float nParticles) in HN.
    pose proof (Qmult_le_0_compat _ _ HN Hq) as HNq.
    assert (inject_Z (Z.of_nat (length hp)) <= PF.N_float nParticles * q + 1)
      as Hh.
    { destruct (np_geb (Finite q) (Finite inv_N)).
      - cbn [np_mul np_floor_int bind] in Eh.
        pose proof (Qfloor_le (PF.N_float nParticles * q)) as Hf.
        destruct (Z.to_nat (Qfloor (PF.N_float nParticles * q))) as [|k] eqn:Ek.
        + injection Eh as <- _. cbn [length].
          change (inject_Z (Z.of_nat 0)) with 0. lra.
        + destruct (PF.column particle particles m) as [p|e]; cbn [bind] in Eh;
            [|discriminate].
          injection Eh as <- _.
          cbn [length repeat]. rewrite repeat_length, <- Ek.
          rewrite Z2Nat.id by lia. lra.
      - destruct (np_geb (Finite q) _).
        + destruct (PF.column particle particles m) as [p|e]; cbn [bind] in Eh;
            [|discriminate].
          injection Eh as <- _. cbn [length].
          change (inject_Z (Z.of_nat 1)) with 1. lra.
        + injection Eh as <- _. cbn [length].
          change (inject_Z (Z.of_nat 0)) with 0. lra. }
    rewrite length_app, inject_nat_plus. cbn [length Qsum fold_right].
    fold (Qsum qs). rewrite inject_nat_succ. lra.
Qed.

(** X22: on [nParticles] particles with normalized weights,
    [reallocation_resampling] returns at least [nParticles] and at most
    [2 * nParticles] particles. *)
Theorem reallocation_size_bounds (nParticles : nat) (particle : Type)
        (particles : list particle) (qs : list Q)
        (raw_u : nat -> Q) (raw_c : nat -> nat) :
  (0 < nParticles)%nat ->
  length particles = nParticles -> length qs = nParticles ->
  normalized qs ->
  exists ps ws,
    PF.reallocation_resampling nParticles particle particles (weights_of qs)
                               raw_u raw_c = Ok (ps, ws) /\
    (nParticles <= length ps <= 2 * nParticles)%nat.
Proof.
  intros HN Hp Hq [Hpos Hsum].
  destruct (reallocate_ok nParticles particle particles raw_u qs 0 HN)
    as [kp [kw [Ek Hl]]]; [lia|].
  pose proof (reallocate_size _ _ _ _ _ _ _ _ Hpos Ek) as Hsize.
  unfold PF.reallocation_resampling. rewrite Ek. cbn [bind fst snd].
  assert (length (weights_of qs) = nParticles) as Hw
      by (unfold weights_of; rewrite length_map; exact Hq).
  rewrite Hw.
  destruct (pad_ok nParticles particle particles nParticles raw_c
                   (nParticles - length kp) 0 HN HN)
    as [fp [fw [Ef [H1 H2]]]]; [lia|].
  rewrite Ef. cbn [bind fst snd]. eexists. eexists.
  split; [reflexivity|]. rewrite length_app, H1.
  rewrite Hsum, Hq in Hsize. unfold PF.N_float in Hsize.
  assert (inject_Z (Z.of_nat (length kp))
          <= inject_Z (Z.of_nat (2 * nParticles))) as Hb.
  { replace (2 * nParticles)%nat with (nParticles + nParticles)%nat by lia.
    rewrite inject_nat_plus. lra. }
  rewrite <- Zle_Qle in Hb. lia.
Qed.

Lemma reallocation_size_bounds_witness :
  exists ps ws,
    PF.reallocation_resampling 4 vec3 demo_particles (weights_of demo_weights)
                               (fun _ => 1 # 5) (fun j => j) = Ok (ps, ws) /\
    (4 <= length ps <= 2 * 4)%nat.
Proof.
  apply (reallocation_size_bounds 4 vec3 demo_particles demo_weights).
  - lia.
  - reflexivity.
  - reflexivity.
  - exact demo_weights_normalized.
Defined.

Lemma ones_over_sum (n : nat) :
  (0 < n)%nat ->
  same_weights
    (map (fun o => np_div o (np_sum (repeat (Finite 1) n))) (repeat (Finite 1) n))
    (weights_of (repeat (1 / inject_Z (Z.of_nat n)) n)).
Proof.
  intros Hn. destruct (uniform_weights n Hn) as [E _]. cbv zeta in E.
  rewrite E. apply same_weights_of.
  pose proof (Qsum_repeat 1 n) as Hs.
  assert (0 < inject_Z (Z.of_nat n)) as Hpos.
  { change 0 with (inject_Z 0). rewrite <- Zlt_Qlt. lia. }
  generalize n at 2 4. intros k.
  induction k as [|k IH]; cbn [repeat]; constructor; [|exact IH].
  rewrite Hs. field. lra.
Qed.

(** X19: when [re_sampling] returns, there was at least one weight and
    the weights returned are uniform, each [1 / len(pw)], whatever the
    input weights were. *)
Theorem re_sampling_resets_weights (nParticles : nat) (particle : Type)
        (px : list particle) (pw : list npfloat) (raw : Q)
        (px' : list particle) (pw' : list npfloat) :
  PF.re_sampling nParticles particle px pw raw = Ok (px', pw') ->
  (0 < length pw)%nat /\
  same_weights pw'
    (weights_of (repeat (1 / inject_Z (Z.of_nat (length pw))) (length pw))).
Proof.
  unfold PF.re_sampling. intros E.
  destruct (PF.one_over_N nParticles) as [step|e] eqn:Ei; cbn [bind] in E;
    [|discriminate].
  destruct (PF.select _ (PF.cumsum pw) 0) as [idx|e] eqn:Es; cbn [bind] in E;
    [|discriminate].
  destruct (PF.take_columns particle px idx) as [ps|e]; cbn [bind] in E;
    [|discriminate].
  injection E as _ <-.
  assert (0 < length pw)%nat as Hlen.
  { apply one_over_N_inv in Ei. destruct Ei as [HN _].
    destruct nParticles as [|n]; [lia|].
    destruct pw as [|w pw]; [|cbn [length]; lia].
    unfold PF.arange_unit in Es. cbn [seq map PF.cumsum PF.cumsum_from
                                         PF.select PF.advance bind] in Es.
    discriminate. }
  split; [exact Hlen|]. apply ones_over_sum. exact Hlen.
Qed.

Lemma re_sampling_resets_weights_witness :
  exists px' pw',
    PF.re_sampling 4 vec3 demo_particles (weights_of demo_weights) (1 # 2)
    = Ok (px', pw') /\
    (0 < length (weights_of demo_weights))%nat /\
    same_weights pw'
      (weights_of (repeat (1 / inject_Z (Z.of_nat
                                 (length (weights_of demo_weights))))
                          (length (weights_of demo_weights)))).
Proof.
  destruct (PF.re_sampling 4 vec3 demo_particles (weights_of demo_weights)
                           (1 # 2)) as [[px' pw']|e] eqn:E.
  - exists px', pw'. split; [reflexivity|].
    exact (re_sampling_resets_weights _ _ _ _ _ _ _ E).
  - vm_compute in E. discriminate E.
Defined.

Lemma advance_fails (target : npfloat) (rest : list npfloat) (ind : nat) :
  Forall (fun c => np_gtb target c = true) rest ->
  PF.advance target rest ind = Raise IndexError.
Proof.
  intros H. revert ind. induction H as [|c rest Hc _ IH]; intros ind.
  - reflexivity.
  - cbn [PF.advance]. rewrite Hc. apply IH.
Qed.

Lemma cumsum_from_bounded (a : Q) (qs : list Q) :
  Forall (fun q => 0 <= q) qs ->
  Forall (fun c => exists x, c = Finite x /\ x <= a + Qsum qs)
         (PF.cumsum_from (Finite a) (weights_of qs)).
Proof.
  intros H. revert a. induction H as [|q qs Hq Hqs IH]; intros a.
  - constructor.
  - cbn [weights_of map PF.cumsum_from np_add]. fold (weights_of qs).
    pose proof (Qsum_nonneg qs Hqs) as Hs. constructor.
    + exists (a + q). split; [reflexivity|]. cbn [Qsum fold_right].
      fold (Qsum qs). lra.
    + eapply Forall_impl; [|apply IH]. cbn beta.
      intros c [x [-> Hx]]. exists x. split; [reflexivity|].
      cbn [Qsum fold_right]. fold (Qsum qs). lra.
Qed.

(** X20: with at least two particles asked for, when the nonnegative
    weights sum to less than the offset drawn, [raw / nParticles], the
    walk of [re_sampling] runs off the cumulative weights and raises
    [IndexError]. *)
Theorem re_sampling_needs_weight (nParticles : nat) (particle : Type)
        (px : list particle) (qs : list Q) (raw : Q) :
  (2 <= nParticles)%nat -> Forall (fun q => 0 <= q) qs ->
  Qsum qs < raw / PF.N_float nParticles ->
  PF.re_sampling nParticles particle px (weights_of qs) raw
  = Raise IndexError.
Proof.
  intros HN2 Hpos Hs.
  assert (0 < nParticles)%nat as HN by lia. unfold PF.re_sampling.
  rewrite (one_over_N_Ok nParticles HN). cbn [bind].
  destruct nParticles as [|n]; [lia|].
  unfold PF.arange_unit. cbn [seq map PF.select].
  rewrite advance_fails; [reflexivity|].
  unfold PF.cumsum. eapply Forall_impl; [|apply cumsum_from_bounded; exact Hpos].
  cbn beta. intros c [x [-> Hx]]. unfold np_gtb. cbn [np_ltb].
  apply Qltb_true. unfold uniform.
  pose proof (N_float_pos (S n) HN) as HNp.
  assert (raw / PF.N_float (S n)
          == inject_Z (Z.of_nat 0) * (1 / PF.N_float (S n))
             + (0 + (1 / PF.N_float (S n) - 0) * raw)) as Heq.
  { change (inject_Z (Z.of_nat 0)) with 0. field. lra. }
  assert (x <= Qsum qs) as Hx' by lra.
  eapply Qle_lt_trans; [exact Hx'|]. rewrite <- Heq. exact Hs.
Qed.

Lemma re_sampling_needs_weight_witness :
  PF.re_sampling 4 vec3 demo_particles (weights_of [0; 0; 0; 0]) (1 # 2)
  = Raise IndexError.
Proof.
  apply (re_sampling_needs_weight 4 vec3 demo_particles [0; 0; 0; 0] (1 # 2)).
  - lia.
  - repeat constructor; discriminate.
  - reflexivity.
Defined.

End ResamplingBounds.

Section Equivariance.
Local Open Scope R_scope.

(** X23: moving the pose by [(a, b)] moves the result of [tcomp], of the
    EKF motion model and of the particle filter's motion model by
    [(a, b)] and leaves the heading returned unchanged. *)
Theorem motion_translation (x u : vec3) (dt a b : R) (QEst : mat)
        (w_k : vec3) :
  let shift (p : vec3) := mk3 (v0 p + a) (v1 p + b) (v2 p) in
  tcomp (shift x) u dt = shift (tcomp x u dt) /\
  EKF.motion_model (shift x) u dt = shift (EKF.motion_model x u dt) /\
  PF.motion_model (shift x) u dt QEst w_k
  = shift (PF.motion_model x u dt QEst w_k).
Proof.
  cbv zeta. unfold tcomp, EKF.motion_model, PF.motion_model.
  cbn [v0 v1 v2]. repeat split; f_equal; ring.
Qed.

End Equivariance.

Section UniformWeights.
Local Open Scope Q_scope.

Lemma Qsumsq_uniform (n : nat) :
  (0 < n)%nat ->
  Qsumsq (repeat (1 / inject_Z (Z.of_nat n)) n) == 1 / inject_Z (Z.of_nat n).
Proof.
  intros Hn. unfold Qsumsq. rewrite map_repeat, Qsum_repeat.
  assert (0 < inject_Z (Z.of_nat n)) as Hpos.
  { change 0 with (inject_Z 0). rewrite <- Zlt_Qlt. lia. }
  field. lra.
Qed.

(** X24: uniform weights [1 / n] over [n = nParticles] particles are kept
    by the resampling stage, particles and weights, when the threshold
    ratio is at most one half (the program's is 0.1): their [Neff], [n]
    up to rounding, is not below [n * theta_eff]. *)
Theorem uniform_weights_are_kept (nParticles : nat) (theta_eff : Q)
        (xParticles : list vec3) (raw_u : nat -> Q) (raw_c : nat -> nat) :
  (0 < nParticles)%nat -> theta_eff <= 1 # 2 ->
  let wp := weights_of (repeat (1 / inject_Z (Z.of_nat nParticles))
                               nParticles) in
  PF.resample_stage nParticles theta_eff xParticles wp raw_u raw_c
  = Ok (xParticles, wp).
Proof.
  intros HN Hth wp. pose proof (Qsumsq_uniform nParticles HN) as Hsq.
  assert (0 < inject_Z (Z.of_nat nParticles)) as Hpos.
  { change 0 with (inject_Z 0). rewrite <- Zlt_Qlt. lia. }
  set (n := inject_Z (Z.of_nat nParticles)) in *.
  assert (0 < 1 / n) as Hinv by (apply Qlt_shift_div_l; lra).
  assert (PF.Neff wp
          = Finite (1 / Qsumsq (repeat (1 / n) nParticles))) as HE.
  { unfold wp. rewrite Neff_finite. unfold np_div.
    rewrite Qeq_bool_false by lra. reflexivity. }
  assert (1 / Qsumsq (repeat (1 / n) nParticles) == n) as Hn.
  { rewrite Hsq. field. lra. }
  unfold PF.resample_stage. rewrite HE. unfold PF.Nth, PF.N_float.
  fold n. cbn [np_ltb].
  assert (Qltb (1 / Qsumsq (repeat (1 / n) nParticles)) (n * theta_eff)
          = false) as ->; [|reflexivity].
  apply Qltb_false. rewrite Hn. nra.
Qed.

Lemma uniform_weights_are_kept_witness :
  let wp := weights_of (repeat (1 / inject_Z (Z.of_nat 4)) 4) in
  PF.resample_stage 4 (1 # 10) demo_particles wp (fun _ => 1 # 5) (fun j => j)
  = Ok (demo_particles, wp).
Proof.
  apply (uniform_weights_are_kept 4 (1 # 10) demo_particles
                                  (fun _ => 1 # 5) (fun j => j)).
  - lia.
  - discriminate.
Defined.

End UniformWeights.

(* ================================================================= *)
(** * Part IV: statements that do not hinge on rounding *)
(* ================================================================= *)

(** The theorems of this part are stated so that the rounding of the
    doubles does not decide them; the lemmas on [Doubles] show where
    rounding does decide what the code returns. *)

Section DoublesArithmetic.
Import Floats.

Lemma SFmul_comm (prec emax : Z) (x y : spec_float) :
  SFmul prec emax x y = SFmul prec emax y x.
Proof.
  destruct x as [sx|sx| |sx mx ex], y as [sy|sy| |sy my ey]; cbn;
    try reflexivity;
    try (rewrite Bool.xorb_comm; reflexivity).
  rewrite Pos.mul_comm, Z.add_comm, Bool.xorb_comm. reflexivity.
Qed.

(** The product of two doubles does not depend on their order. *)
Lemma double_mul_comm (x y : float) : (x * y = y * x)%float.
Proof.
  apply Prim2SF_inj. rewrite !mul_spec. apply SFmul_comm.
Qed.

End DoublesArithmetic.

Section MotionModelsOnDoubles.
Import Floats.
Local Open Scope float_scope.

(** C7 (amended): the EKF motion model and [tcomp] integrate by the same
    scheme: as formulas over the reals they return the same pose, and on
    doubles they return the same wrapped heading, bit for bit. *)
Theorem motion_model_agrees_with_tcomp :
  (forall (x u : vec3) (dt : R), EKF.motion_model x u dt = tcomp x u dt) /\
  (forall (s c : float) (x u : Doubles.fvec3) (dt : float),
      Doubles.f2 (Doubles.motion_model s c x u dt)
      = Doubles.f2 (Doubles.tcomp s c x u dt)).
Proof.
  split; [exact motion_model_eq_tcomp|].
  intros s c x u dt. unfold Doubles.motion_model, Doubles.tcomp.
  cbn [Doubles.f2]. rewrite (double_mul_comm (Doubles.f2 u) dt). reflexivity.
Qed.

(** C7, as stated, fails on doubles: from the pose [(0, 0, 1)] with the
    control [(1, 2, 0)] and [dt = 3], the motion model returns
    [x = -3.4279189912429597] and [tcomp] returns
    [x = -3.4279189912429593]: the two group the products differently. *)
Lemma motion_model_doubles_differ :
  Doubles.f0 (Doubles.motion_model Doubles.sin_1 Doubles.cos_1
                (Doubles.fmk3 0 0 1) (Doubles.fmk3 1 2 0) 3)
  = -0x1.b6c60cac5ce7cp+1 /\
  Doubles.f0 (Doubles.tcomp Doubles.sin_1 Doubles.cos_1
                (Doubles.fmk3 0 0 1) (Doubles.fmk3 1 2 0) 3)
  = -0x1.b6c60cac5ce7bp+1 /\
  Doubles.motion_model Doubles.sin_1 Doubles.cos_1
    (Doubles.fmk3 0 0 1) (Doubles.fmk3 1 2 0) 3
  <> Doubles.tcomp Doubles.sin_1 Doubles.cos_1
       (Doubles.fmk3 0 0 1) (Doubles.fmk3 1 2 0) 3.
Proof.
  split; [vm_compute; reflexivity|]. split; [vm_compute; reflexivity|].
  intros E. apply (f_equal Doubles.f0) in E.
  assert ((Doubles.f0 (Doubles.motion_model Doubles.sin_1 Doubles.cos_1
                         (Doubles.fmk3 0 0 1) (Doubles.fmk3 1 2 0) 3)
           =? Doubles.f0 (Doubles.tcomp Doubles.sin_1 Doubles.cos_1
                            (Doubles.fmk3 0 0 1) (Doubles.fmk3 1 2 0) 3))
          = false) as Hne by (vm_compute; reflexivity).
  rewrite E in Hne. vm_compute in Hne. discriminate Hne.
Qed.

End MotionModelsOnDoubles.

Section ResamplingOutcomes.
Local Open Scope Q_scope.

(** C1 (amended): on [nParticles] particles with normalized weights,
    whenever [re_sampling] returns it returns exactly [nParticles]
    particles, each a particle of the input, and [nParticles] weights,
    each [1 / nParticles]; [reallocation_resampling] returns, with as
    many weights as particles and at least [nParticles] of them. *)
Theorem resampling_outcomes (nParticles : nat) (particle : Type)
        (px : list particle) (qs : list Q)
        (raw : Q) (raw_u : nat -> Q) (raw_c : nat -> nat) :
  (0 < nParticles)%nat ->
  length px = nParticles -> length qs = nParticles ->
  normalized qs ->
  (forall px' pw',
      PF.re_sampling nParticles particle px (weights_of qs) raw
      = Ok (px', pw') ->
      length px' = nParticles /\ Forall (fun p => In p px) px' /\
      length pw' = nParticles /\
      same_weights pw'
        (weights_of (repeat (1 / inject_Z (Z.of_nat nParticles))
                            nParticles))) /\
  (exists ps ws,
      PF.reallocation_resampling nParticles particle px (weights_of qs)
                                 raw_u raw_c = Ok (ps, ws) /\
      length ps = length ws /\ (nParticles <= length ps)%nat).
Proof.
  intros HN Hpx Hqs _. split; [|apply reallocation_returns; assumption].
  intros px' pw' E. unfold PF.re_sampling in E.
  destruct (PF.one_over_N nParticles) as [step|e]; cbn [bind] in E;
    [|discriminate].
  destruct (PF.select _ (PF.cumsum (weights_of qs)) 0) as [idx|e] eqn:Es;
    cbn [bind] in E; [|discriminate].
  destruct (PF.take_columns particle px idx) as [ps|e] eqn:Et;
    cbn [bind] in E; [|discriminate].
  injection E as <- <-.
  destruct (select_Ok_inv _ _ _ _ Es) as [Hl _].
  destruct (take_columns_Ok_inv _ _ _ _ Et) as [Hl' Hin].
  rewrite length_map in Hl. unfold PF.arange_unit in Hl.
  rewrite length_map, length_seq in Hl.
  assert (length (weights_of qs) = nParticles) as Hw
      by (unfold weights_of; rewrite length_map; exact Hqs).
  rewrite Hw.
  split; [lia|]. split; [exact Hin|]. split.
  - rewrite length_map, repeat_length. reflexivity.
  - apply ones_over_sum. exact HN.
Qed.

(** Both algorithms on four particles of weights [0.7, 0.1, 0.1, 0.1]. *)
Lemma resampling_outcomes_witness :
  (forall px' pw',
      PF.re_sampling 4 vec3 demo_particles (weights_of demo_weights) (1 # 2)
      = Ok (px', pw') ->
      length px' = 4%nat /\ Forall (fun p => In p demo_particles) px' /\
      length pw' = 4%nat /\
      same_weights pw'
        (weights_of (repeat (1 / inject_Z (Z.of_nat 4)) 4))) /\
  (exists ps ws,
      PF.reallocation_resampling 4 vec3 demo_particles
                                 (weights_of demo_weights)
                                 (fun _ => 1 # 5) (fun j => j) = Ok (ps, ws) /\
      length ps = length ws /\ (4 <= length ps)%nat).
Proof.
  apply (resampling_outcomes 4 vec3 demo_particles demo_weights (1 # 2)
                            (fun _ => 1 # 5) (fun j => j)).
  - lia.
  - reflexivity.
  - reflexivity.
  - exact demo_weights_normalized.
Defined.

End ResamplingOutcomes.

Section ResamplingOnDoubles.
Import Floats.
Local Open Scope float_scope.

(** On doubles the walk of [re_sampling] can run off the cumulative
    weights of a normalized weight vector: the five doubles below sum to
    one exactly, [np.cumsum] rounds their sums to
    [0.9999999999999999], the last target is [1.0] for the draw
    [1 - 2^-53], and the walk raises [IndexError]. *)
Lemma re_sampling_raises_on_doubles :
  let pw := [0x1p-1; 0x1.ffffffffffffep-2; 0x1.8p-55; 0x1.8p-55; 0x1p-55] in
  let qs := [1 # 2; 4503599627370495 # 9007199254740992;
             3 # 72057594037927936; 3 # 72057594037927936;
             1 # 36028797018963968]%Q in
  let raw := 0x1.fffffffffffffp-1 in
  map Doubles.exact pw = map Some qs /\ normalized qs /\
  Doubles.exact raw = Some (9007199254740991 # 9007199254740992)%Q /\
  Doubles.cumsum pw
  = [0x1p-1; 0x1.fffffffffffffp-1; 0x1.fffffffffffffp-1;
     0x1.fffffffffffffp-1; 0x1.fffffffffffffp-1] /\
  Doubles.re_sampling_indexes 5 pw raw = Raise IndexError.
Proof.
  cbv zeta. split; [vm_compute; reflexivity|].
  split; [split; [repeat constructor; discriminate|vm_compute; reflexivity]|].
  repeat split; vm_compute; reflexivity.
Qed.

End ResamplingOnDoubles.

Section UpdateSymmetry.
Local Open Scope R_scope.



Lemma inv2_nonsingular (S : mat) :
  det2 S <> 0 ->
  inv2 S = Ok (of_rows [[S 1%nat 1%nat / det2 S; - S 0%nat 1%nat / det2 S];
                        [- S 1%nat 0%nat / det2 S; S 0%nat 0%nat / det2 S]]).
Proof.
  intros Hd. unfold inv2. destruct (Req_dec_T (det2 S) 0) as [E|_];
    [contradiction|reflexivity].
Qed.

(** Positive semi-definiteness is not enforced by the update: from the
    symmetric [PPred = - I], with [REst = 4 I] and the landmark [(1, 0)]
    seen from the origin, the innovation covariance is [[3, 0], [0, 2]],
    the update returns, and the covariance returned has
    [PEst[0, 0] = - 4 / 3]. *)
Lemma kalman_update_psd_not_enforced :
  exists xEst PEst,
    symmetric 3 (mscale (-1) eye) /\ pd 2 (mscale 4 eye) /\
    EKF.update (mk3 0 0 0) (mscale (-1) eye) (Some (mk2 1 0, 0%nat))
               [(1, 0)] (mscale 4 eye) = Ok (xEst, PEst) /\
    symmetric 3 PEst /\
    PEst 0%nat 0%nat = - 4 / 3 /\
    ~ psd 3 PEst.
Proof.
  assert (sqrt ((1 - 0) * (1 - 0) + (0 - 0) * (0 - 0)) = 1) as Hq.
  { replace ((1 - 0) * (1 - 0) + (0 - 0) * (0 - 0)) with 1 by ring.
    exact sqrt_1. }
  set (H := of_rows [[- (1 - 0) / sqrt ((1 - 0) * (1 - 0) + (0 - 0) * (0 - 0));
                      - (0 - 0) / sqrt ((1 - 0) * (1 - 0) + (0 - 0) * (0 - 0));
                      0];
                     [(0 - 0) / ((1 - 0) * (1 - 0) + (0 - 0) * (0 - 0));
                      - (1 - 0) / ((1 - 0) * (1 - 0) + (0 - 0) * (0 - 0));
                      -1]]).
  set (S := madd (mscale 4 eye)
                 (mmul 3 (mmul 3 H (mscale (-1) eye)) (transpose H))).
  assert (det2 S = 6) as Hdet.
  { cbv [det2 S madd mmul dot transpose H of_rows nth mscale eye Nat.eqb].
    rewrite Hq. field. }
  assert (det2 S <> 0) as Hnz by (rewrite Hdet; lra).
  pose proof (inv2_nonsingular S Hnz) as Hinv.
  assert (exists xEst PEst,
             EKF.update (mk3 0 0 0) (mscale (-1) eye) (Some (mk2 1 0, 0%nat))
                        [(1, 0)] (mscale 4 eye) = Ok (xEst, PEst) /\
             PEst 0%nat 0%nat = - 4 / 3) as [xEst [PEst [E E00]]].
  { unfold EKF.update, EKF.observation_model, EKF.get_obs_jac.
    cbn [nth_error bind v0 v1 v2]. fold H.
    unfold EKF.kalman_gain, EKF.covariance_update. fold S.
    rewrite Hinv. cbn [bind]. eexists. eexists. split; [reflexivity|].
    rewrite Hdet.
    cbv [S madd msub mmul dot transpose H of_rows nth mscale eye Nat.eqb].
    rewrite Hq. field. }
  exists xEst, PEst.
  split; [intros i j _ _; unfold mscale, eye; rewrite (Nat.eqb_sym i j);
          reflexivity|].
  split.
  { intros v [i [Hi Hv]]. cbv [quad dot mscale eye Nat.eqb].
    pose proof (Rle_0_sqr (v 0%nat)) as H0.
    pose proof (Rle_0_sqr (v 1%nat)) as H1.
    assert (0 < Rsqr (v i)) as Hp by (apply Rlt_0_sqr; exact Hv).
    unfold Rsqr in *. destruct i as [|[|i]]; [nra | nra | lia]. }
  split; [exact E|].
  split; [exact (update_covariance_symmetric _ _ _ _ _ _ _ _ E)|].
  split; [exact E00|].
  intros Hpsd. specialize (Hpsd (fun k => if Nat.eqb k 0 then 1 else 0)).
  rewrite (quad_diagonal PEst 0) in Hpsd by lia. rewrite E00 in Hpsd. lra.
Qed.

End UpdateSymmetry.

Section UpdateOnDoubles.
Import Floats.
Local Open Scope float_scope.


End UpdateOnDoubles.

Section NeffBounds.
Local Open Scope Q_scope.




End NeffBounds.

Section NoObservationStep.
Local Open Scope Q_scope.

(** C9 (amended): without an observation the weighting leaves the weight
    vector untouched, and the step still divides every weight by the sum
    of the weights and takes the resampling decision on the result; when
    no resampling is due the weights after the step are the weights
    before it, each divided by their sum. *)
Theorem no_observation_rescales_weights
        (nParticles : nat) (theta_eff : Q) (observation : Type)
        (likelihood : observation -> vec3 -> npfloat)
        (xParticles : list vec3) (wp : list npfloat)
        (raw_u : nat -> Q) (raw_c : nat -> nat) :
  PF.weighting nParticles observation likelihood None xParticles wp = Ok wp /\
  PF.weight_step nParticles theta_eff observation likelihood None
                 xParticles wp raw_u raw_c
  = PF.resample_stage nParticles theta_eff xParticles (PF.normalize wp)
                      raw_u raw_c /\
  (np_ltb (PF.Neff (PF.normalize wp)) (PF.Nth nParticles theta_eff) = false ->
   PF.weight_step nParticles theta_eff observation likelihood None
                  xParticles wp raw_u raw_c
   = Ok (xParticles, PF.normalize wp)) /\
  (forall qs, wp = weights_of qs -> ~ Qsum qs == 0 ->
              PF.normalize wp = weights_of (map (fun q => q / Qsum qs) qs)).
Proof.
  split; [reflexivity|]. split; [reflexivity|]. split.
  - intros H. unfold PF.weight_step, PF.weighting. cbn [bind].
    unfold PF.resample_stage. rewrite H. reflexivity.
  - intros qs -> Hs. apply normalize_finite. exact Hs.
Qed.

(** A step without observation on the weights [0.7, 0.1, 0.1, 0.1]. *)
Lemma no_observation_rescales_weights_witness :
  PF.weight_step 4 (1 # 10) unit unit_likelihood None
                 demo_particles (weights_of demo_weights)
                 (fun _ => 1 # 5) (fun j => j)
  = Ok (demo_particles, PF.normalize (weights_of demo_weights)) /\
  PF.normalize (weights_of demo_weights)
  = weights_of (map (fun q => q / Qsum demo_weights) demo_weights).
Proof.
  pose proof (no_observation_rescales_weights
                4 (1 # 10) unit unit_likelihood demo_particles
                (weights_of demo_weights) (fun _ => 1 # 5) (fun j => j))
    as [_ [_ [Hkeep Hdiv]]].
  split.
  - apply Hkeep. reflexivity.
  - apply Hdiv; [reflexivity|]. discriminate.
Defined.

End NoObservationStep.
